(** * A k-d tree over municipal tree records: kdtree.py and tree_utilities.py

    A shallow embedding of [argsort], [MunicipalTree], [TreeReader],
    [_KDTNode] and [KDTree] (build_tree, lookup, get_nearest, display_tree),
    and the properties of the specification checked against it.

    Python's [float] is IEEE 754 binary64, so coordinates are Rocq's
    primitive floats: [-], [+], [*], [sqrt], [<] and [==] are the same
    operations bit for bit.  Python's [int] is [Z], [str] is [String.string]. *)

From Stdlib Require Import List ZArith Lia Bool Floats Permutation Sorted Arith.
From Stdlib Require String.
Import String.StringSyntax.
Delimit Scope string_scope with string.
From Equations Require Import Equations.
Import ListNotations.

Set Implicit Arguments.

#[local] Arguments Nat.modulo : simpl never.
#[local] Arguments Nat.div : simpl never.

(* ===================================================================== *)
(** * Python exceptions *)
(* ===================================================================== *)

Module Py.

(** The two built-in exceptions the modelled code can raise. *)
Inductive exn : Set :=
| ValueError
| OverflowError.

(** A computation that returns a value or raises. *)
Inductive result (A : Type) : Type :=
| Ok (a : A)
| Raise (e : exn).
Arguments Ok {A} a.
Arguments Raise {A} e.

Definition bind {A B : Type} (m : result A) (k : A -> result B) : result B :=
  match m with
  | Ok a => k a
  | Raise e => Raise e
  end.

Definition raises {A : Type} (m : result A) : bool :=
  match m with
  | Ok _ => false
  | Raise _ => true
  end.

(** [m] returns, or raises [e0] and nothing else. *)
Definition raises_only {A : Type} (e0 : exn) (m : result A) : Prop :=
  match m with
  | Ok _ => True
  | Raise e => e = e0
  end.

End Py.

Import Py.

Notation "x <- m ;; k" := (Py.bind m (fun x => k))
  (at level 61, m at next level, right associativity).

(* ===================================================================== *)
(** * Python float arithmetic *)
(* ===================================================================== *)

Module PyFloat.

Local Open Scope float_scope.

(** [x ** 2] on a float.  CPython's float_pow returns nan and inf for a nan
    or infinite base, calls C pow(x, 2.0) otherwise and raises
    OverflowError when a finite base gives an infinite result.  The value of
    pow(x, 2.0) is taken to be the correctly rounded square [x * x]; the C
    library's pow may return a neighbouring float instead.  The two agree in
    what the proofs below use of a square: it is the same for [x] and [-x],
    zero at a zero, nan at nan, never below zero, and infinite from
    [|x| = 2 ** 512] on. *)
Definition pow2 (x : float) : result float :=
  let r := x * x in
  if is_infinity r && negb (is_infinity x) then Raise OverflowError else Ok r.

(** [math.sqrt x]: ValueError (math domain error) below zero. *)
Definition math_sqrt (x : float) : result float :=
  if x <? 0 then Raise ValueError else Ok (sqrt x).

(** Quotient [n / d] rounded to the nearest integer, ties to even
    ([0 <= n], [0 < d]). *)
Definition round_half_even (n d : Z) : Z :=
  let q := (n / d)%Z in
  match (2 * (n mod d) ?= d)%Z with
  | Lt => q
  | Gt => (q + 1)%Z
  | Eq => if Z.even q then q else (q + 1)%Z
  end.

(** [round(x, 5)] on a float: nan and the infinities round to themselves;
    a finite [x = (-1)^s * m * 2^e] is rounded, from its exact value and
    with ties to even, to [n] units of 1e-5, and the result is the float
    nearest to [n / 100000] (float.__round__ goes through a correctly
    rounded decimal string of five places and back). *)
Definition round5 (x : float) : float :=
  match Prim2SF x with
  | S754_finite s m e =>
      let n := match e with
               | Zneg p => round_half_even (Zpos m * 100000) (2 ^ Zpos p)
               | _ => (Zpos m * 100000 * 2 ^ e)%Z
               end in
      match n with
      | Zpos p => SF2Prim (SFdiv prec emax (S754_finite s p 0)
                                           (S754_finite false 100000 0))
      | _ => if s then neg_zero else zero
      end
  | _ => x
  end.

End PyFloat.

Import PyFloat.

(* ===================================================================== *)
(** * list.sort and sorted, by key *)
(* ===================================================================== *)

(** [sorted(l, key=key)] and [l.sort(key=key)] are stable and compare keys
    with [<] only.  They are modelled by the stable insertion sort below,
    which also uses [<] only; on keys that [<] orders totally (integers,
    floats other than nan) every stable sort returns the same list.  With a
    nan among the keys [<] is no total order and the list Python returns
    depends on the steps of its merge sort, which are not modelled: the
    insertion sort returns Python's list when the list has at most two
    elements, or when no element is below its predecessor (both leave the
    list as it is), and need not otherwise.  What is stated below on the
    order of a sorted list is stated for keys without nan. *)
Section SortByKey.

Variables A K : Type.
Variable key : A -> K.
Variable ltb : K -> K -> bool.

(** Put [x] in front of the first element whose key is not below [x]'s. *)
Fixpoint insert_by (x : A) (l : list A) : list A :=
  match l with
  | [] => [x]
  | y :: l' => if ltb (key y) (key x) then y :: insert_by x l' else x :: l
  end.

Definition sorted_by (l : list A) : list A :=
  fold_right insert_by [] l.

End SortByKey.

(* ===================================================================== *)
(** * kdtree.py: argsort *)
(* ===================================================================== *)

(** [sorted(range(len(seq)), key=seq.__getitem__)]; [seq.__getitem__ i] is
    only ever applied to [i < len(seq)], the default of [nth] is not read. *)
Definition argsort (seq : list Z) : list nat :=
  sorted_by (fun i => nth i seq 0%Z) Z.ltb (List.seq 0 (length seq)).

(** Value first, index second: the order in which a stable ascending sort
    leaves the indices. *)
Definition by_value_then_index (s : list Z) (i j : nat) : Prop :=
  (nth i s 0 < nth j s 0)%Z \/ (nth i s 0%Z = nth j s 0%Z /\ i < j).

(* ===================================================================== *)
(** * tree_utilities.py: MunicipalTree *)
(* ===================================================================== *)

Record MunicipalTree : Type := mkMunicipalTree {
  _id : Z;
  _ward : Z;
  _species : String.string;
  _diameter : Z;
  _lon : float;
  _lat : float
}.

(** The read-only properties [lon], [lat] and [species] return [_lon],
    [_lat] and [_species]; the projections stand for them below. *)

Section Constructor.

(** The builtins [int(s)] and [float(s)] on a string: the parsed value, or
    [None] where Python raises ValueError. *)
Variable py_int : String.string -> option Z.
Variable py_float : String.string -> option float.

Definition int_of (s : String.string) : result Z :=
  match py_int s with
  | Some z => Ok z
  | None => Raise ValueError
  end.

Definition float_of (s : String.string) : result float :=
  match py_float s with
  | Some x => Ok x
  | None => Raise ValueError
  end.

(** [MunicipalTree.__init__(id, ward, species, diameter, lon, lat)]. *)
Definition MunicipalTree_init (id ward species diameter lon lat : String.string)
  : result MunicipalTree :=
  i <- int_of id ;;
  w <- int_of ward ;;
  d <- int_of diameter ;;
  x <- float_of lon ;;
  y <- float_of lat ;;
  Ok (mkMunicipalTree i w species d x y).

End Constructor.

(** [math.sqrt((a - lat) ** 2 + (b - lon) ** 2)], the expression shared by
    [distance_to] and [_get_nearest_recursive], for a record at latitude [a]
    and longitude [b]. *)
Definition euclid (a b lat lon : float) : result float :=
  dlat <- pow2 (a - lat)%float ;;
  dlon <- pow2 (b - lon)%float ;;
  math_sqrt (dlat + dlon)%float.

(** [MunicipalTree.distance_to(lon, lat)]. *)
Definition distance_to (t : MunicipalTree) (lon lat : float) : result float :=
  d <- euclid lat lon (_lat t) (_lon t) ;;
  Ok (round5 d).

(* ===================================================================== *)
(** * kdtree.py: _KDTNode and KDTree *)
(* ===================================================================== *)

(** A value of type Optional[_KDTNode]: [Empty] is [None], [Node] is a
    [_KDTNode] with its [_tree], [_pivot], [_left] and [_right]. *)
Inductive KDT : Type :=
| Empty
| Node (_tree : MunicipalTree) (_pivot : float) (_left _right : KDT).

(** [(tree.lat, tree.lon)[dim]]. *)
Definition axis (dim : nat) (tree : MunicipalTree) : float :=
  match dim with
  | O => _lat tree
  | _ => _lon tree
  end.

(** [data.sort(key=lambda tree: (tree.lat, tree.lon)[dim])], for the lists
    on which [sorted_by] is Python's sort: those with no nan on the axis
    [dim], and those the sort leaves as they are. *)
Definition sort_axis (dim : nat) (data : list MunicipalTree) : list MunicipalTree :=
  sorted_by (axis dim) PrimFloat.ltb data.

(** Lengths of the sorted list and of its two slices, for the termination
    of [build_tree]. *)
Lemma insert_by_length (A K : Type) (key : A -> K) (ltb : K -> K -> bool) x l :
  length (insert_by key ltb x l) = S (length l).
Proof.
  induction l as [|y l IH]; simpl; [reflexivity|].
  destruct (ltb (key y) (key x)); simpl; [rewrite IH|]; reflexivity.
Qed.

Lemma sorted_by_length (A K : Type) (key : A -> K) (ltb : K -> K -> bool) l :
  length (sorted_by key ltb l) = length l.
Proof.
  induction l as [|x l IH]; simpl; [reflexivity|].
  rewrite insert_by_length, IH. reflexivity.
Qed.

Lemma sort_axis_length dim data : length (sort_axis dim data) = length data.
Proof. apply sorted_by_length. Qed.

Lemma slice_left_lt (A : Type) (l : list A) :
  l <> [] -> length (firstn (length l / 2) l) < length l.
Proof.
  intros Hl. rewrite length_firstn.
  assert (0 < length l) by (destruct l; [congruence | simpl; lia]).
  pose proof (Nat.div_lt (length l) 2). lia.
Qed.

Lemma slice_right_lt (A : Type) (l : list A) :
  l <> [] -> length (skipn (S (length l / 2)) l) < length l.
Proof.
  intros Hl. rewrite length_skipn.
  assert (0 < length l) by (destruct l; [congruence | simpl; lia]).
  lia.
Qed.

(** [KDTree.build_tree(data, depth)], as a function of the list's contents.
    The slices [data[:median_idx]] and [data[median_idx + 1:]] are [firstn]
    and [skipn]; [median_idx] is within the sorted list, so the default of
    [nth] is not read. *)
Equations? build_tree (data : list MunicipalTree) (depth : nat) : KDT
  by wf (length data) lt :=
  build_tree [] depth := Empty;
  build_tree (t :: ts) depth :=
    let dim := depth mod 2 in
    let data' := sort_axis dim (t :: ts) in
    let median_idx := length data' / 2 in
    let median_tree := nth median_idx data' t in
    let pivot := axis dim median_tree in
    Node median_tree pivot
         (build_tree (firstn median_idx data') (S depth))
         (build_tree (skipn (S median_idx) data') (S depth)).
Proof.
  all: clear build_tree pivot median_tree.
  all: pose proof (sort_axis_length dim (t :: ts)) as Hlen.
  all: assert (Hne : sort_axis dim (t :: ts) <> [])
    by (intros E; rewrite E in Hlen; discriminate Hlen).
  all: simpl length in Hlen; rewrite <- Hlen.
  - exact (slice_left_lt Hne).
  - exact (slice_right_lt Hne).
Qed.

(** [KDTree.__init__(data)]: the root stored in [self.KDTree]. *)
Definition KDTree (data : list MunicipalTree) : KDT := build_tree data 0.

(** [KDTree._lookup_recursive(node, lat, lon, depth)]. *)
Fixpoint _lookup_recursive (node : KDT) (lat lon : float) (depth : nat) : bool :=
  match node with
  | Empty => false
  | Node tree pivot l r =>
      if (round5 lat =? round5 (_lat tree))%float
         && (round5 lon =? round5 (_lon tree))%float
      then true
      else
        let dim := depth mod 2 in
        if ((if (dim =? 0)%nat then lat else lon) <? pivot)%float
        then _lookup_recursive l lat lon (S depth)
        else _lookup_recursive r lat lon (S depth)
  end.

(** [KDTree.lookup(lat, lon)]. *)
Definition lookup (self : KDT) (lat lon : float) : bool :=
  _lookup_recursive self lat lon 0.

(** The pair [best]: the candidate (or [None]) and its distance. *)
Definition best_t : Type := (option MunicipalTree * float)%type.

(** [KDTree._get_nearest_recursive(node, lat, lon, depth, best)]. *)
Fixpoint _get_nearest_recursive (node : KDT) (lat lon : float) (depth : nat)
    (best : best_t) : result best_t :=
  match node with
  | Empty => Ok best
  | Node tree pivot l r =>
      dist <- euclid (_lat tree) (_lon tree) lat lon ;;
      let best := if (dist <? snd best)%float then (Some tree, dist) else best in
      let dim := depth mod 2 in
      let q := if dim =? 0 then lat else lon in
      best <- (if (q <? pivot)%float
               then _get_nearest_recursive l lat lon (S depth) best
               else _get_nearest_recursive r lat lon (S depth) best) ;;
      gap <- pow2 (pivot - q)%float ;;
      if (gap <? snd best)%float
      then if (q <? pivot)%float
           then _get_nearest_recursive r lat lon (S depth) best
           else _get_nearest_recursive l lat lon (S depth) best
      else Ok best
  end.

(** [KDTree.get_nearest(lat, lon)], seeded with [(None, float('inf'))]. *)
Definition get_nearest (self : KDT) (lat lon : float) : result (option MunicipalTree) :=
  best <- _get_nearest_recursive self lat lon 0 (None, infinity) ;;
  Ok (fst best).

(* ===================================================================== *)
(** * build_tree on the caller's list object *)
(* ===================================================================== *)

(** The list objects of the Python heap, by address.  [data.sort] writes the
    object [data] refers to; a slice allocates a new object. *)
Module Heap.

Definition heap : Type := list (list MunicipalTree).

Definition read (h : heap) (a : nat) : list MunicipalTree := nth a h [].

Fixpoint write (h : heap) (a : nat) (v : list MunicipalTree) : heap :=
  match h, a with
  | [], _ => []
  | _ :: h', O => v :: h'
  | x :: h', S a' => x :: write h' a' v
  end.

(** A new object holding [v]; its address is the next free one. *)
Definition alloc (h : heap) (v : list MunicipalTree) : heap * nat :=
  (h ++ [v], length h).

End Heap.

Import Heap.

(** [KDTree.build_tree(data, depth)] with [data] the address of a list
    object: the heap after the call and the node returned.  [fuel] bounds the
    depth of the recursion; [None] is fuel exhausted. *)
Fixpoint build_tree_at (fuel : nat) (h : heap) (data : nat) (depth : nat)
  : option (heap * KDT) :=
  match fuel with
  | O => None
  | S fuel =>
      match read h data with
      | [] => Some (h, Empty)
      | t :: _ =>
          let dim := depth mod 2 in
          let h := write h data (sort_axis dim (read h data)) in
          let median_idx := length (read h data) / 2 in
          let median_tree := nth median_idx (read h data) t in
          let pivot := axis dim median_tree in
          let (h, lo) := alloc h (firstn median_idx (read h data)) in
          match build_tree_at fuel h lo (S depth) with
          | None => None
          | Some (h, l) =>
              let (h, hi) := alloc h (skipn (S median_idx) (read h data)) in
              match build_tree_at fuel h hi (S depth) with
              | None => None
              | Some (h, r) => Some (h, Node median_tree pivot l r)
              end
          end
      end
  end.

(** [KDTree(data)] with [data] the address of the caller's list. *)
Definition KDTree_at (h : heap) (data : nat) : option (heap * KDT) :=
  build_tree_at (S (length (read h data))) h data 0.

(* ===================================================================== *)
(** * The order in which get_nearest meets the records *)
(* ===================================================================== *)

(** [_get_nearest_recursive] with a log: the same computation, returning
    besides [best] the records of the nodes visited, in the order of their
    visits. *)
Fixpoint _get_nearest_logged (node : KDT) (lat lon : float) (depth : nat)
    (best : best_t) : result (best_t * list MunicipalTree) :=
  match node with
  | Empty => Ok (best, [])
  | Node tree pivot l r =>
      dist <- euclid (_lat tree) (_lon tree) lat lon ;;
      let best := if (dist <? snd best)%float then (Some tree, dist) else best in
      let dim := depth mod 2 in
      let q := if dim =? 0 then lat else lon in
      near <- (if (q <? pivot)%float
               then _get_nearest_logged l lat lon (S depth) best
               else _get_nearest_logged r lat lon (S depth) best) ;;
      gap <- pow2 (pivot - q)%float ;;
      if (gap <? snd (fst near))%float
      then far <- (if (q <? pivot)%float
                   then _get_nearest_logged r lat lon (S depth) (fst near)
                   else _get_nearest_logged l lat lon (S depth) (fst near)) ;;
           Ok (fst far, tree :: snd near ++ snd far)
      else Ok (fst near, tree :: snd near)
  end.

(** The records get_nearest visits, in order. *)
Definition visit_order (self : KDT) (lat lon : float) : result (list MunicipalTree) :=
  out <- _get_nearest_logged self lat lon 0 (None, infinity) ;;
  Ok (snd out).

(** Lines 236-238: the distance of one record, and the strict update. *)
Definition consider (lat lon : float) (best : best_t) (tree : MunicipalTree)
  : result best_t :=
  dist <- euclid (_lat tree) (_lon tree) lat lon ;;
  Ok (if (dist <? snd best)%float then (Some tree, dist) else best).

(** The update applied to a sequence of records, first to last. *)
Fixpoint scan (lat lon : float) (trees : list MunicipalTree) (best : best_t)
  : result best_t :=
  match trees with
  | [] => Ok best
  | tree :: rest => best' <- consider lat lon best tree ;; scan lat lon rest best'
  end.

(* ===================================================================== *)
(** * Properties of trees, records and searches *)
(* ===================================================================== *)

(** Number of [_KDTNode] objects reachable from a root. *)
Fixpoint size (t : KDT) : nat :=
  match t with
  | Empty => 0
  | Node _ _ l r => S (size l + size r)
  end.

(** The records stored at the nodes, left subtree first. *)
Fixpoint records (t : KDT) : list MunicipalTree :=
  match t with
  | Empty => []
  | Node tree _ l r => records l ++ tree :: records r
  end.

(** Number of nodes on the longest path from the root down. *)
Fixpoint height (t : KDT) : nat :=
  match t with
  | Empty => 0
  | Node _ _ l r => S (Nat.max (height l) (height r))
  end.

(** In a tree whose root is at depth [depth], every node's pivot is its own
    record's latitude when the node's depth is even, its longitude when odd. *)
Fixpoint axes_alternate (depth : nat) (t : KDT) : Prop :=
  match t with
  | Empty => True
  | Node tree pivot l r =>
      pivot = axis (depth mod 2) tree
      /\ axes_alternate (S depth) l /\ axes_alternate (S depth) r
  end.

(** At every node the left subtree holds [floor(count / 2)] of the [count]
    records at and below the node.  This counts records only; which record
    the node holds is the matter of [splits_at_median]. *)
Fixpoint median_rooted (t : KDT) : Prop :=
  match t with
  | Empty => True
  | Node _ _ l r => size l = size t / 2 /\ median_rooted l /\ median_rooted r
  end.

(** Ascending on the axis [dim]: every record is at or below ([<=]) every
    later one. *)
Definition ascending (dim : nat) (l : list MunicipalTree) : Prop :=
  StronglySorted (fun x y => (axis dim x <=? axis dim y)%float = true) l.

(** No record of the list is nan on the axis [dim]. *)
Definition no_nan_on (dim : nat) (l : list MunicipalTree) : Prop :=
  Forall (fun x => is_nan (axis dim x) = false) l.

(** [t] is built from the sub-collection [data] at depth [depth] by median
    splits.  An empty sub-collection gives no node.  Otherwise, with
    [sorted] the sub-collection as the sort of the node leaves it, a
    reordering of [data]: the node's record is the one at index
    [floor(count / 2)] of [sorted], its pivot is that record's coordinate on
    the axis of the depth, the left subtree is built from the records before
    that index and the right subtree from those after it, one level down.
    When no record of [data] is nan on the axis, [sorted] is the stable sort
    of [data] and is ascending on the axis. *)
Fixpoint splits_at_median (depth : nat) (data : list MunicipalTree) (t : KDT) : Prop :=
  match t with
  | Empty => data = []
  | Node tree pivot l r =>
      exists sorted,
        Permutation sorted data
        /\ (no_nan_on (depth mod 2) data ->
            sorted = sort_axis (depth mod 2) data /\ ascending (depth mod 2) sorted)
        /\ nth_error sorted (length data / 2) = Some tree
        /\ pivot = axis (depth mod 2) tree
        /\ splits_at_median (S depth) (firstn (length data / 2) sorted) l
        /\ splits_at_median (S depth) (skipn (S (length data / 2)) sorted) r
  end.

(** The partition the node's docstring and [_lookup_recursive] rely on: on
    the node's axis, records of the left subtree are strictly below the
    pivot and records of the right subtree are at or above it. *)
Fixpoint partitioned (depth : nat) (t : KDT) : Prop :=
  match t with
  | Empty => True
  | Node _ pivot l r =>
      Forall (fun x => (axis (depth mod 2) x <? pivot)%float = true) (records l)
      /\ Forall (fun x => (pivot <=? axis (depth mod 2) x)%float = true) (records r)
      /\ partitioned (S depth) l /\ partitioned (S depth) r
  end.

(** The partition [build_tree] does establish: left at or below the pivot,
    right at or above it. *)
Fixpoint weakly_partitioned (depth : nat) (t : KDT) : Prop :=
  match t with
  | Empty => True
  | Node _ pivot l r =>
      Forall (fun x => (axis (depth mod 2) x <=? pivot)%float = true) (records l)
      /\ Forall (fun x => (pivot <=? axis (depth mod 2) x)%float = true) (records r)
      /\ weakly_partitioned (S depth) l /\ weakly_partitioned (S depth) r
  end.

(** Neither coordinate is nan. *)
Definition no_nan (t : MunicipalTree) : Prop :=
  is_nan (_lat t) = false /\ is_nan (_lon t) = false.

(** The record [tree] is not at distance [d] or less from the query. *)
Definition farther_than (lat lon d : float) (tree : MunicipalTree) : Prop :=
  exists dx, euclid (_lat tree) (_lon tree) lat lon = Ok dx /\ (dx <=? d)%float = false.

(** The record [tree] is not at a distance less than [d] from the query. *)
Definition not_closer_than (lat lon d : float) (tree : MunicipalTree) : Prop :=
  exists dx, euclid (_lat tree) (_lon tree) lat lon = Ok dx /\ (dx <? d)%float = false.

(** [best] after the records [seen]: the first of them at the least
    distance, or the seed when none is below infinity. *)
Definition first_minimum (lat lon : float) (seen : list MunicipalTree)
    (best : best_t) : Prop :=
  match fst best with
  | None => snd best = infinity /\ Forall (not_closer_than lat lon infinity) seen
  | Some r =>
      exists before after,
        seen = before ++ r :: after
        /\ euclid (_lat r) (_lon r) lat lon = Ok (snd best)
        /\ Forall (farther_than lat lon (snd best)) before
        /\ Forall (not_closer_than lat lon (snd best)) after
  end.

(** Not below zero: nan, a zero of either sign, or a positive number. *)
Definition SFnonneg (f : spec_float) : Prop :=
  match f with
  | S754_nan | S754_zero _ => True
  | S754_infinity s | S754_finite s _ _ => s = false
  end.

(* ===================================================================== *)
(** * Records used as inputs *)
(* ===================================================================== *)

(** MunicipalTree('1', '1', 'oak', '10', '1', '1') and
    MunicipalTree('2', '1', 'elm', '10', '2', '1'): same latitude 1.0,
    longitudes 1.0 and 2.0. *)
Definition oak_1_1 : MunicipalTree := mkMunicipalTree 1 1 "oak"%string 10 1 1.
Definition elm_1_2 : MunicipalTree := mkMunicipalTree 2 1 "elm"%string 10 2 1.

(** Records at (lat 9, lon 4) and (lat 10, lon 0). *)
Definition ash_9_4 : MunicipalTree := mkMunicipalTree 1 1 "ash"%string 10 4 9.
Definition fir_10_0 : MunicipalTree := mkMunicipalTree 2 1 "fir"%string 10 0 10.

(** MunicipalTree('3', '1', 'yew', '10', '3', 'nan'): float('nan') is a
    float, the constructor accepts it as a latitude. *)
Definition yew_nan_3 : MunicipalTree := mkMunicipalTree 3 1 "yew"%string 10 3 nan.

(* ===================================================================== *)
(** * Inputs without ties *)
(* ===================================================================== *)

(** No record occurs twice and no two records compare equal ([==]) on
    latitude, nor on longitude. *)
Definition no_ties (data : list MunicipalTree) : Prop :=
  NoDup data
  /\ forall dim x y,
       In x data -> In y data -> (axis dim x =? axis dim y)%float = true -> x = y.

(** [round(lat, 5)] and [round(lon, 5)] of the record are numbers, so that
    each equals itself under [==]. *)
Definition rounds_to_number (t : MunicipalTree) : Prop :=
  is_nan (round5 (_lat t)) = false /\ is_nan (round5 (_lon t)) = false.

(* ===================================================================== *)
(** * Differences of floats *)
(* ===================================================================== *)

(** [v] is [u] with the sign changed, or both are zeros. *)
Definition SFmirror (u v : spec_float) : Prop :=
  v = SFopp u \/ exists s s', u = S754_zero s /\ v = S754_zero s'.

(* ===================================================================== *)
(** * Further exceptions *)
(* ===================================================================== *)

(** The built-in exceptions of the code below: those of [Py], TypeError (a
    call with the wrong number of arguments) and AttributeError (an
    attribute read on None). *)
Module PyMore.

Inductive exn : Set :=
| Builtin (e : Py.exn)
| TypeError
| AttributeError.

Inductive outcome (A : Type) : Type :=
| Return (a : A)
| Throw (e : exn).
Arguments Return {A} a.
Arguments Throw {A} e.

(** A computation of [Py] as one of [PyMore]. *)
Definition lift {A : Type} (m : Py.result A) : outcome A :=
  match m with
  | Ok a => Return a
  | Raise e => Throw (Builtin e)
  end.

End PyMore.

(* ===================================================================== *)
(** * kdtree.py: display_tree *)
(* ===================================================================== *)

(** [round(x, ndigits)] on a float, for [scale = 10 ** ndigits]: the
    definition of [round5] with the scale as a parameter. *)
Definition round_scaled (scale : positive) (x : float) : float :=
  match Prim2SF x with
  | S754_finite s m e =>
      let n := match e with
               | Zneg p => round_half_even (Zpos m * Zpos scale) (2 ^ Zpos p)
               | _ => (Zpos m * Zpos scale * 2 ^ e)%Z
               end in
      match n with
      | Zpos p => SF2Prim (SFdiv prec emax (S754_finite s p 0)
                                           (S754_finite false scale 0))
      | _ => if s then neg_zero else zero
      end
  | _ => x
  end.

(** [round(x, 3)]. *)
Definition round3 (x : float) : float := round_scaled 1000 x.

(** [len(s)], an int. *)
Definition len (s : String.string) : Z := Z.of_nat (String.length s).

Fixpoint str_repeat (n : nat) (s : String.string) : String.string :=
  match n with
  | O => String.EmptyString
  | S n' => String.append s (str_repeat n' s)
  end.

(** [k * s] for an int [k] and a str [s]: empty when [k <= 0]. *)
Definition str_mul (k : Z) (s : String.string) : String.string :=
  str_repeat (Z.to_nat k) s.

(** [[x] * k] for an int [k]: empty when [k <= 0]. *)
Definition list_mul (A : Type) (x : A) (k : Z) : list A := repeat x (Z.to_nat k).

Section Display.

(** [repr] of a float, which the f-string writes. *)
Variable py_repr : float -> String.string.

Local Open Scope string_scope.
Local Infix "++" := String.append : string_scope.

(** [f'{round(float(node.tree.lat), 3)},{round(float(node.tree.lon), 3)}']. *)
Definition label (tree : MunicipalTree) : String.string :=
  py_repr (round3 (_lat tree)) ++ "," ++ py_repr (round3 (_lon tree)).

(** The tuple [(lines, width, height, middle)]. *)
Definition rendering : Type := (list String.string * Z * Z * Z)%type.

(** The branch "No child." *)
Definition no_child (tree : MunicipalTree) : rendering :=
  let line := label tree in
  let width := len line in
  let height := 1%Z in
  let middle := (width / 2)%Z in
  ([line], width, height, middle).

(** The branch "Only left child.", after the call on [node.left]. *)
Definition only_left_child (tree : MunicipalTree) (from_left : rendering) : rendering :=
  let '(lines, n, p, x) := from_left in
  let s := label tree in
  let u := len s in
  let first_line := str_mul (x + 1) " " ++ str_mul (n - x - 1) "_" ++ s in
  let second_line := str_mul x " " ++ "|" ++ str_mul (n - x - 1 + u) " " in
  let shifted_lines := map (fun line => line ++ str_mul u " ") lines in
  (([first_line; second_line] ++ shifted_lines)%list, n + u, p + 2, n + u / 2)%Z.

(** The branch "Only right child.", after the call on [node.right]. *)
Definition only_right_child (tree : MunicipalTree) (from_right : rendering) : rendering :=
  let '(lines, n, p, x) := from_right in
  let s := label tree in
  let u := len s in
  let first_line := s ++ str_mul x "_" ++ str_mul (n - x) " " in
  let second_line := str_mul (u + x) " " ++ "|" ++ str_mul (n - x - 1) " " in
  let shifted_lines := map (fun line => str_mul u " " ++ line) lines in
  (([first_line; second_line] ++ shifted_lines)%list, n + u, p + 2, u / 2)%Z.

(** The branch "Two children.", after the calls on [node.left] and
    [node.right]; [left_] and [right_] are the source's [left] and [right],
    which [left += ...] and [right += ...] extend. *)
Definition two_children (tree : MunicipalTree) (from_left from_right : rendering) : rendering :=
  let '(left_, n, p, x) := from_left in
  let '(right_, m, q, y) := from_right in
  let s := label tree in
  let u := len s in
  let first_line :=
    str_mul (x + 1) " " ++ str_mul (n - x - 1) "_" ++ s
    ++ str_mul y "_" ++ str_mul (m - y) " " in
  let second_line :=
    str_mul x " " ++ "|" ++ str_mul (n - x - 1 + u + y) " "
    ++ "|" ++ str_mul (m - y - 1) " " in
  let left_ :=
    if (p <? q)%Z then (left_ ++ list_mul (str_mul n " ") (q - p))%list else left_ in
  let right_ :=
    if (p <? q)%Z then right_
    else if (q <? p)%Z then (right_ ++ list_mul (str_mul m " ") (p - q))%list
         else right_ in
  let zipped_lines := combine left_ right_ in
  let lines :=
    ([first_line; second_line]
     ++ map (fun ab => (fst ab ++ str_mul u " " ++ snd ab)%string) zipped_lines)%list in
  (lines, n + m + u, Z.max p q + 2, n + u / 2)%Z.

(** [KDTree._display_helper(node)].  [node.right] on None raises
    AttributeError; the recursive calls are on children that are not None. *)
Fixpoint _display_helper (node : KDT) : PyMore.outcome rendering :=
  match node with
  | Empty => PyMore.Throw PyMore.AttributeError
  | Node tree _ l r =>
      match r, l with
      | Empty, Empty => PyMore.Return (no_child tree)
      | Empty, _ =>
          match _display_helper l with
          | PyMore.Throw e => PyMore.Throw e
          | PyMore.Return from_left => PyMore.Return (only_left_child tree from_left)
          end
      | _, Empty =>
          match _display_helper r with
          | PyMore.Throw e => PyMore.Throw e
          | PyMore.Return from_right => PyMore.Return (only_right_child tree from_right)
          end
      | _, _ =>
          match _display_helper l with
          | PyMore.Throw e => PyMore.Throw e
          | PyMore.Return from_left =>
              match _display_helper r with
              | PyMore.Throw e => PyMore.Throw e
              | PyMore.Return from_right =>
                  PyMore.Return (two_children tree from_left from_right)
              end
          end
      end
  end.

(** [KDTree.display_tree()]: the lines it prints, in order. *)
Definition display_tree (self : KDT) : PyMore.outcome (list String.string) :=
  match _display_helper self with
  | PyMore.Throw e => PyMore.Throw e
  | PyMore.Return (lines, _, _, _) => PyMore.Return lines
  end.

(** The widths of the labels of all nodes, added up. *)
Fixpoint label_width (t : KDT) : Z :=
  match t with
  | Empty => 0
  | Node tree _ l r => label_width l + len (label tree) + label_width r
  end.

(** A rendering of [height] levels and of width [width]: as many lines as it
    says, each as long as it says, twice the levels less one, and the middle
    within the width. *)
Definition well_laid (levels : nat) (width : Z) (r : rendering) : Prop :=
  let '(lines, n, p, x) := r in
  Z.of_nat (length lines) = p
  /\ Forall (fun line => len line = n) lines
  /\ (0 <= x < n)%Z
  /\ p = (2 * Z.of_nat levels - 1)%Z
  /\ n = width.

End Display.

(* ===================================================================== *)
(** * tree_utilities.py: TreeReader *)
(* ===================================================================== *)

Section Reader.

Variable py_int : String.string -> option Z.
Variable py_float : String.string -> option float.

(** [MunicipalTree] called on the unpacked row: TypeError unless the row has
    the six fields [id, ward, species, diameter, lon, lat]. *)
Definition MunicipalTree_of_row (row : list String.string)
  : PyMore.outcome MunicipalTree :=
  match row with
  | [id; ward; species; diameter; lon; lat] =>
      PyMore.lift (MunicipalTree_init py_int py_float id ward species diameter lon lat)
  | _ => PyMore.Throw PyMore.TypeError
  end.

(** The loop of [read_trees] over the rows that [csv.reader] yields, from
    the values [count] and [trees] have when it is entered. *)
Fixpoint read_rows (rows : list (list String.string)) (count : nat)
    (trees : list MunicipalTree) : PyMore.outcome (list MunicipalTree) :=
  match rows with
  | [] => PyMore.Return trees
  | row :: rest =>
      if 0 <? count
      then match MunicipalTree_of_row row with
           | PyMore.Throw e => PyMore.Throw e
           | PyMore.Return tree => read_rows rest (S count) (trees ++ [tree])
           end
      else read_rows rest (S count) trees
  end.

(** [TreeReader.read_trees(filename)], as a function of the rows of the
    file. *)
Definition read_trees (rows : list (list String.string))
  : PyMore.outcome (list MunicipalTree) :=
  read_rows rows 0 [].

End Reader.

(** [b'] is [b] or has a smaller distance. *)
Definition improves (b' b : best_t) : Prop :=
  snd b' = snd b \/ (snd b' <? snd b)%float = true.

(* ===================================================================== *)
(** * The order of binary64 floats *)
(* ===================================================================== *)

(** Facts about [<?] and [<=?] on primitive floats, read off their
    specification [SFcompare]: what the sort and the search rely on. *)
Module FloatOrder.

Ltac sf_cases :=
  repeat match goal with
         | x : spec_float |- _ => destruct x
         | b : bool |- _ => destruct b
         end;
  cbn; try congruence;
  repeat match goal with
         | |- context [Z.compare ?a ?b] =>
             destruct (Z.compare_spec a b); subst; cbn; try congruence; try lia
         | |- context [Pos.compare_cont Eq ?a ?b] =>
             change (Pos.compare_cont Eq a b) with (Pos.compare a b);
             destruct (Pos.compare_spec a b); subst; cbn; try congruence; try lia
         end.

Lemma SFlt_le x y : SFltb x y = true -> SFleb x y = true.
Proof. unfold SFltb, SFleb. destruct (SFcompare x y) as [[]|]; congruence. Qed.

Lemma SFle_lt_trans x y z :
  SFleb x y = true -> SFltb y z = true -> SFltb x z = true.
Proof. unfold SFltb, SFleb. sf_cases. Qed.

Lemma SFle_trans x y z :
  SFleb x y = true -> SFleb y z = true -> SFleb x z = true.
Proof. unfold SFleb. sf_cases. Qed.

Lemma SFlt_irrefl x : SFltb x x = false.
Proof.
  unfold SFltb. sf_cases.
  all: rewrite ?Z.compare_refl, ?Pos.compare_refl; cbn; congruence.
Qed.

Lemma SFle_total x y :
  SFeqb x x = true -> SFeqb y y = true -> SFltb x y = false -> SFleb y x = true.
Proof. unfold SFltb, SFleb, SFeqb. sf_cases. Qed.

Lemma binary_round_aux_sign prec emax s m e l :
  match binary_round_aux prec emax s m e l with
  | S754_nan | S754_zero _ => True
  | S754_infinity s' | S754_finite s' _ _ => s' = s
  end.
Proof.
  unfold binary_round_aux.
  destruct (shr_fexp prec emax m e l) as [mrs' e'].
  destruct (shr_fexp prec emax _ e' loc_Exact) as [mrs'' e''].
  destruct (shr_m mrs''); auto.
  destruct (Z.leb e'' (emax - prec)); reflexivity.
Qed.

Lemma SFmul_self_nonneg prec emax x : SFnonneg (SFmul prec emax x x).
Proof.
  destruct x as [s|s| |s m e]; simpl; auto.
  - destruct s; reflexivity.
  - pose proof (binary_round_aux_sign prec emax (xorb s s)
                  (Z.pos (m * m)) (e + e) loc_Exact) as H.
    rewrite xorb_nilpotent in *.
    destruct (binary_round_aux _ _ _ _ _ _); simpl; auto.
Qed.

Lemma SFadd_nonneg prec emax x y :
  SFnonneg x -> SFnonneg y -> SFnonneg (SFadd prec emax x y).
Proof.
  destruct x as [sx|sx| |sx mx ex], y as [sy|sy| |sy my ey];
    simpl; intros Hx Hy; subst; auto.
  - destruct sx, sy; exact I.
  - reflexivity.
  - unfold cond_Zopp, binary_normalize.
    change (Z.pos ?a + Z.pos ?b)%Z with (Z.pos (a + b)). cbv iota.
    unfold binary_round.
    destruct (shl_align _ _ _) as [mz ez].
    pose proof (binary_round_aux_sign prec emax false (Z.pos mz) ez loc_Exact) as H.
    destruct (binary_round_aux _ _ _ _ _ _); simpl; auto.
Qed.

Lemma SFnonneg_not_lt_zero x : SFnonneg x -> SFltb x (S754_zero false) = false.
Proof.
  destruct x as [s|s| |s m e]; simpl; intros H; subst; unfold SFltb; simpl; auto.
Qed.

Local Open Scope float_scope.

(** A sum of two squares is never below zero, so its square root is defined. *)
Lemma sum_of_squares_nonneg x y : (x * x + y * y <? 0) = false.
Proof.
  rewrite ltb_spec, add_spec, !mul_spec.
  apply SFnonneg_not_lt_zero, SFadd_nonneg; apply SFmul_self_nonneg.
Qed.

Lemma lt_le a b : (a <? b) = true -> (a <=? b) = true.
Proof. rewrite ltb_spec, leb_spec. apply SFlt_le. Qed.

Lemma le_lt_trans a b c : (a <=? b) = true -> (b <? c) = true -> (a <? c) = true.
Proof. rewrite !ltb_spec, leb_spec. apply SFle_lt_trans. Qed.

Lemma le_trans a b c : (a <=? b) = true -> (b <=? c) = true -> (a <=? c) = true.
Proof. rewrite !leb_spec. apply SFle_trans. Qed.

Lemma lt_irrefl a : (a <? a) = false.
Proof. rewrite ltb_spec. apply SFlt_irrefl. Qed.

(** [<] is total on floats other than nan. *)
Lemma le_total a b :
  is_nan a = false -> is_nan b = false -> (a <? b) = false -> (b <=? a) = true.
Proof.
  unfold is_nan. rewrite !negb_false_iff, !eqb_spec, ltb_spec, leb_spec.
  apply SFle_total.
Qed.

End FloatOrder.

(* ===================================================================== *)
(** * The sort: a stable permutation *)
(* ===================================================================== *)

Section SortFacts.

Variables A K : Type.
Variable key : A -> K.
Variable ltb : K -> K -> bool.

Lemma insert_by_perm x l : Permutation (insert_by key ltb x l) (x :: l).
Proof.
  induction l as [|y l IH]; simpl; [reflexivity|].
  destruct (ltb (key y) (key x)); [|reflexivity].
  rewrite IH. apply perm_swap.
Qed.

Lemma sorted_by_perm l : Permutation (sorted_by key ltb l) l.
Proof.
  induction l as [|x l IH]; simpl; [reflexivity|].
  rewrite insert_by_perm. now constructor.
Qed.

(** [B x y]: [x] stands before [y] in the input.  [R x y]: [x] may stand
    before [y] in the output. *)
Variables B R : A -> A -> Prop.
Hypothesis R_below : forall x y, ltb (key y) (key x) = true -> R y x.
Hypothesis R_stable : forall x y, B x y -> ltb (key y) (key x) = false -> R x y.
Hypothesis R_trans : forall x y z, R x y -> R y z -> R x z.

Lemma insert_by_sorted x l :
  StronglySorted R l -> Forall (B x) l -> StronglySorted R (insert_by key ltb x l).
Proof.
  induction 1 as [|y l Hl IH Hy]; intros HB; simpl.
  - repeat constructor.
  - inversion_clear HB as [|? ? Hxy HBl].
    destruct (ltb (key y) (key x)) eqn:E.
    + constructor; [now apply IH|].
      apply (Permutation_Forall (Permutation_sym (insert_by_perm x l))).
      constructor; [now apply R_below | exact Hy].
    + assert (Rxy : R x y) by now apply R_stable.
      constructor; [now constructor|].
      constructor; [exact Rxy|].
      eapply Forall_impl; [|exact Hy]. intros z Hz. now apply R_trans with y.
Qed.

Lemma sorted_by_sorted l :
  StronglySorted B l -> StronglySorted R (sorted_by key ltb l).
Proof.
  induction 1 as [|x l Hl IH Hx]; simpl; [constructor|].
  apply insert_by_sorted; [exact IH|].
  apply (Permutation_Forall (Permutation_sym (sorted_by_perm l))). exact Hx.
Qed.

End SortFacts.

Lemma StronglySorted_impl (A : Type) (P Q : A -> A -> Prop) (l : list A) :
  (forall x y, P x y -> Q x y) -> StronglySorted P l -> StronglySorted Q l.
Proof.
  intros HPQ. induction 1 as [|x l Hl IH Hx]; constructor; [exact IH|].
  eapply Forall_impl; [|exact Hx]. intros y. apply HPQ.
Qed.

Lemma seq_increasing a n : StronglySorted lt (List.seq a n).
Proof.
  revert a. induction n as [|n IH]; intros a; simpl; constructor; [apply IH|].
  apply Forall_forall. intros i Hi. apply in_seq in Hi. lia.
Qed.

(* ===================================================================== *)
(** * argsort *)
(* ===================================================================== *)

Lemma argsort_lex_sorted (s : list Z) :
  StronglySorted (by_value_then_index s) (argsort s).
Proof.
  unfold argsort, by_value_then_index. apply sorted_by_sorted with (B := lt).
  - intros x y Hlt. apply Z.ltb_lt in Hlt. left. exact Hlt.
  - intros x y Hxy Hge. apply Z.ltb_ge in Hge.
    destruct (Z.eq_dec (nth x s 0%Z) (nth y s 0%Z)); [right; now split | left; lia].
  - intros x y z [H1|[H1 H1']] [H2|[H2 H2']]; try (left; lia). right. split; lia.
  - apply seq_increasing.
Qed.

(** A list has at most one arrangement that a strict order sorts. *)
Lemma sorted_perm_unique (A : Type) (R : A -> A -> Prop) :
  (forall x y, R x y -> R y x -> False) ->
  forall l1 l2,
    StronglySorted R l1 -> StronglySorted R l2 -> Permutation l1 l2 -> l1 = l2.
Proof.
  intros Hasym. induction l1 as [|x l1 IH]; intros l2 H1 H2 Hp.
  - apply Permutation_nil in Hp. now subst.
  - destruct l2 as [|y l2].
    { apply Permutation_sym, Permutation_nil in Hp. discriminate Hp. }
    inversion_clear H1 as [|? ? S1 F1]. inversion_clear H2 as [|? ? S2 F2].
    assert (Exy : x = y).
    { assert (Hx : In x (y :: l2)) by (apply (Permutation_in _ Hp); now left).
      assert (Hy : In y (x :: l1))
        by (apply (Permutation_in _ (Permutation_sym Hp)); now left).
      destruct Hx as [Hx|Hx]; [now subst|]. destruct Hy as [Hy|Hy]; [now subst|].
      rewrite Forall_forall in F1, F2.
      exfalso. apply (Hasym x y); [now apply F1 | now apply F2]. }
    subst y. f_equal. apply IH; try assumption.
    apply (Permutation_cons_inv Hp).
Qed.

(** The result of argsort is the only stable ascending arrangement of the
    indices: any stable sort computes it, whatever its algorithm. *)
Lemma argsort_unique (s : list Z) (l : list nat) :
  Permutation l (List.seq 0 (length s)) ->
  StronglySorted (by_value_then_index s) l ->
  l = argsort s.
Proof.
  intros Hp Hs. apply sorted_perm_unique with (R := by_value_then_index s).
  - unfold by_value_then_index. intros x y [H1|[H1 H1']] [H2|[H2 H2']]; lia.
  - exact Hs.
  - apply argsort_lex_sorted.
  - rewrite Hp. symmetry. apply sorted_by_perm.
Qed.

(** C7: argsort returns a permutation of the indices 0..N-1 along which the
    values ascend, indices of equal values staying in their original
    (increasing) order; and the three documented results. *)
Theorem argsort_stable_permutation (s : list Z) :
  let v := fun i => nth i s 0%Z in
  Permutation (argsort s) (List.seq 0 (length s))
  /\ StronglySorted (fun i j => (v i <= v j)%Z) (argsort s)
  /\ StronglySorted (fun i j => v i = v j -> i < j) (argsort s)
  /\ argsort [] = []
  /\ argsort [3; 1; 2]%Z = [1; 2; 0]
  /\ argsort [8; 6; 7; 5; 3; 0; 9]%Z = [5; 4; 3; 1; 2; 0; 6].
Proof.
  intros v. subst v. cbv beta.
  pose proof (argsort_lex_sorted s) as Hlex. unfold by_value_then_index in Hlex.
  repeat split.
  - apply sorted_by_perm.
  - revert Hlex. apply StronglySorted_impl. intros i j [H|[H _]]; lia.
  - revert Hlex. apply StronglySorted_impl. intros i j [H|[_ H]] E; [lia | exact H].
Qed.

(* ===================================================================== *)
(** * The documented examples *)
(* ===================================================================== *)

(** The doctests of [distance_to] on MunicipalTree('1', '1', 'oak', '10',
    '1', '1'); 1.41421 and 2.82843 are read as the nearest floats, as Python
    reads them. *)
#[local] Set Warnings "-inexact-float".
Lemma distance_to_doctests :
  distance_to oak_1_1 1 1 = Ok 0%float
  /\ distance_to oak_1_1 2 2 = Ok 1.41421%float
  /\ distance_to oak_1_1 3 3 = Ok 2.82843%float.
Proof. repeat split; vm_compute; reflexivity. Qed.
#[local] Set Warnings "+inexact-float".

(** The doctest of [build_tree]: records at (1,1), (2,2), (3,3) give the
    root (2,2) with children (1,1) and (3,3). *)
Lemma build_tree_doctest :
  let t1 := mkMunicipalTree 1 1 "oak"%string 10 1 1 in
  let t2 := mkMunicipalTree 2 2 "cherry"%string 10 2 2 in
  let t3 := mkMunicipalTree 3 3 "maple"%string 10 3 3 in
  KDTree [t1; t2; t3] = Node t2 2 (Node t1 1 Empty Empty) (Node t3 3 Empty Empty).
Proof. vm_compute. reflexivity. Qed.

(* ===================================================================== *)
(** * The empty index *)
(* ===================================================================== *)

(** C6: constructing a KDTree from the empty list raises nothing and stores
    None as the root; on that index lookup is False and get_nearest returns
    None, whatever the query point. *)
Theorem empty_index (lat lon : float) :
  KDTree [] = Empty
  /\ lookup (KDTree []) lat lon = false
  /\ get_nearest (KDTree []) lat lon = Ok None.
Proof.
  unfold KDTree. rewrite build_tree_equation_1. repeat split.
Qed.

(* ===================================================================== *)
(** * The shape of a built tree *)
(* ===================================================================== *)

Lemma median_split (A : Type) (l : list A) (i : nat) (d : A) :
  i < length l -> l = firstn i l ++ nth i l d :: skipn (S i) l.
Proof.
  revert i. induction l as [|x l IH]; intros i Hi; simpl in Hi; [lia|].
  destruct i as [|i]; simpl; [reflexivity|].
  f_equal. apply IH. lia.
Qed.

Lemma median_idx_lt (n : nat) : 0 < n -> n / 2 < n.
Proof. intros H. apply Nat.div_lt; lia. Qed.

(** The unfolding of [build_tree] on a non-empty list, by its sorted copy. *)
Lemma build_tree_node (data : list MunicipalTree) (depth : nat) (d : MunicipalTree) :
  data <> [] ->
  let data' := sort_axis (depth mod 2) data in
  let median_idx := length data' / 2 in
  build_tree data depth =
    Node (nth median_idx data' d) (axis (depth mod 2) (nth median_idx data' d))
         (build_tree (firstn median_idx data') (S depth))
         (build_tree (skipn (S median_idx) data') (S depth)).
Proof.
  destruct data as [|t ts]; [congruence|]. intros _ data' median_idx.
  rewrite build_tree_equation_2. cbv zeta. fold data'. fold median_idx.
  assert (Hm : median_idx < length data').
  { apply median_idx_lt. unfold data'. rewrite sort_axis_length. simpl. lia. }
  rewrite (nth_indep data' t d Hm). reflexivity.
Qed.

(** Strong induction on the length of the input, along [build_tree]'s calls. *)
Lemma build_tree_ind (P : list MunicipalTree -> nat -> KDT -> Prop) :
  (forall depth, P [] depth Empty) ->
  (forall data depth d, data <> [] ->
     let data' := sort_axis (depth mod 2) data in
     let median_idx := length data' / 2 in
     median_idx < length data' ->
     P (firstn median_idx data') (S depth)
       (build_tree (firstn median_idx data') (S depth)) ->
     P (skipn (S median_idx) data') (S depth)
       (build_tree (skipn (S median_idx) data') (S depth)) ->
     P data depth
       (Node (nth median_idx data' d) (axis (depth mod 2) (nth median_idx data' d))
             (build_tree (firstn median_idx data') (S depth))
             (build_tree (skipn (S median_idx) data') (S depth)))) ->
  forall data depth, P data depth (build_tree data depth).
Proof.
  intros Hnil Hcons data.
  remember (length data) as n eqn:Hn. revert data Hn.
  induction n as [n IHn] using lt_wf_ind. intros data Hn depth.
  assert (IH : forall y, length y < length data ->
                 forall depth, P y depth (build_tree y depth)).
  { intros y Hy. apply (IHn (length y)); [lia | reflexivity]. }
  clear IHn Hn. destruct data as [|t ts].
  - rewrite build_tree_equation_1. apply Hnil.
  - assert (Hne : t :: ts <> []) by discriminate.
    rewrite (build_tree_node depth t Hne). cbv zeta.
    assert (Hne' : sort_axis (depth mod 2) (t :: ts) <> []).
    { intros E. apply (f_equal (@length _)) in E.
      rewrite sort_axis_length in E. discriminate E. }
    apply Hcons.
    + exact Hne.
    + apply median_idx_lt. rewrite sort_axis_length. simpl. lia.
    + apply IH. rewrite <- (sort_axis_length (depth mod 2) (t :: ts)).
      apply slice_left_lt, Hne'.
    + apply IH. rewrite <- (sort_axis_length (depth mod 2) (t :: ts)).
      apply slice_right_lt, Hne'.
Qed.

Lemma size_records (t : KDT) : size t = length (records t).
Proof.
  induction t as [|tree pivot l IHl r IHr]; simpl; [reflexivity|].
  rewrite length_app. simpl. lia.
Qed.

Lemma build_tree_records (data : list MunicipalTree) (depth : nat) :
  Permutation (records (build_tree data depth)) data.
Proof.
  apply build_tree_ind with (P := fun data _ t => Permutation (records t) data);
    clear data depth.
  - reflexivity.
  - intros data depth d _ data' median_idx Hm IHl IHr. simpl.
    rewrite IHl, IHr, <- (median_split data' d Hm).
    apply sorted_by_perm.
Qed.

Lemma build_tree_size (data : list MunicipalTree) (depth : nat) :
  size (build_tree data depth) = length data.
Proof.
  rewrite size_records. apply Permutation_length, build_tree_records.
Qed.

(** C4: the built tree has as many nodes as the input has records, and the
    records at its nodes are the input records, each as often as it occurs
    in the input. *)
Theorem build_tree_keeps_every_record (data : list MunicipalTree) :
  size (KDTree data) = length data
  /\ Permutation (records (KDTree data)) data.
Proof.
  split; [apply build_tree_size | apply build_tree_records].
Qed.

Lemma build_tree_height (data : list MunicipalTree) (depth k : nat) :
  length data < 2 ^ k -> height (build_tree data depth) <= k.
Proof.
  revert k.
  apply build_tree_ind
    with (P := fun data _ t => forall k, length data < 2 ^ k -> height t <= k);
    clear data depth.
  - intros _ k _. simpl. lia.
  - intros data depth d Hne data' median_idx Hm IHl IHr k Hk.
    assert (Hlen : length data' = length data) by apply sort_axis_length.
    destruct k as [|k]; [simpl in Hk; lia|].
    rewrite Nat.pow_succ_r' in Hk.
    assert (Hidx : median_idx < 2 ^ k).
    { apply Nat.Div0.div_lt_upper_bound; lia. }
    pose proof (Nat.div_mod_eq (length data') 2) as Hdm.
    pose proof (Nat.mod_upper_bound (length data') 2) as Hmod.
    fold median_idx in Hdm.
    simpl. apply le_n_S, Nat.max_lub.
    + apply IHl. rewrite length_firstn. lia.
    + apply IHr. rewrite length_skipn. lia.
Qed.

Lemma build_tree_axes (data : list MunicipalTree) (depth : nat) :
  axes_alternate depth (build_tree data depth).
Proof.
  apply build_tree_ind with (P := fun _ depth t => axes_alternate depth t);
    clear data depth.
  - intros depth. exact I.
  - intros data depth d _ data' median_idx _ IHl IHr. simpl. auto.
Qed.

Lemma build_tree_median (data : list MunicipalTree) (depth : nat) :
  median_rooted (build_tree data depth).
Proof.
  apply build_tree_ind with (P := fun _ _ t => median_rooted t); clear data depth.
  - intros _. exact I.
  - intros data depth d _ data' median_idx Hm IHl IHr.
    split; [|split; assumption].
    change (size (Node ?a ?b ?l ?r)) with (S (size l + size r)).
    rewrite !build_tree_size, length_firstn, length_skipn.
    replace (S (Nat.min median_idx (length data') +
                (length data' - S median_idx))) with (length data') by lia.
    fold median_idx. lia.
Qed.

Lemma sort_axis_ascending (dim : nat) (data : list MunicipalTree) :
  no_nan_on dim data -> ascending dim (sort_axis dim data).
Proof.
  intros Hnan. unfold ascending, sort_axis.
  apply sorted_by_sorted
    with (B := fun x y => is_nan (axis dim x) = false /\ is_nan (axis dim y) = false).
  - intros x y. apply FloatOrder.lt_le.
  - intros x y [Hx Hy] Hlt. now apply FloatOrder.le_total.
  - intros x y z. apply FloatOrder.le_trans.
  - clear - Hnan. induction Hnan as [|x l Hx Hl IH]; constructor; [exact IH|].
    eapply Forall_impl; [|exact Hl]. intros y Hy. now split.
Qed.

Lemma build_tree_splits (data : list MunicipalTree) (depth : nat) :
  splits_at_median depth data (build_tree data depth).
Proof.
  apply build_tree_ind with (P := fun data depth t => splits_at_median depth data t);
    clear data depth.
  - intros depth. reflexivity.
  - intros data depth d _ data' median_idx Hm IHl IHr.
    assert (Hlen : length data / 2 = median_idx).
    { unfold median_idx, data'. now rewrite sort_axis_length. }
    cbn [splits_at_median]. rewrite Hlen. exists data'.
    split; [apply sorted_by_perm|].
    split; [intros Hnan; split; [reflexivity | now apply sort_axis_ascending]|].
    split; [apply nth_error_nth'; exact Hm|].
    split; [reflexivity|]. split; assumption.
Qed.

Lemma nan_is_S754_nan (a : float) : is_nan a = true -> Prim2SF a = S754_nan.
Proof.
  unfold is_nan. rewrite negb_true_iff, eqb_spec. unfold SFeqb.
  destruct (Prim2SF a) as [s|s| |s m e]; simpl.
  - discriminate.
  - destruct s; discriminate.
  - reflexivity.
  - destruct s; rewrite Z.compare_refl, Pos.compare_cont_refl; discriminate.
Qed.

(** No list that holds a record of nan latitude next to another record is
    ascending in latitude, in whatever order: nan is neither at or below nor
    at or above a number. *)
Lemma nan_is_never_in_order (x : MunicipalTree) (l : list MunicipalTree) :
  is_nan (_lat x) = true -> In x l -> ascending 0 l -> l = [x].
Proof.
  intros Hx Hin Hasc. apply nan_is_S754_nan in Hx.
  assert (Hl : forall y, (_lat y <=? _lat x)%float = false).
  { intros y. rewrite leb_spec, Hx. unfold SFleb, SFcompare.
    destruct (Prim2SF (_lat y)); reflexivity. }
  assert (Hr : forall y, (_lat x <=? _lat y)%float = false).
  { intros y. rewrite leb_spec, Hx. reflexivity. }
  unfold ascending in Hasc.
  induction Hasc as [|y l Hs IH Hall].
  - destruct Hin.
  - destruct Hin as [E|Hin].
    + subst y. destruct l as [|z l]; [reflexivity|].
      apply Forall_inv in Hall. simpl in Hall. rewrite Hr in Hall. discriminate Hall.
    + rewrite Forall_forall in Hall. specialize (Hall x Hin).
      simpl in Hall. rewrite Hl in Hall. discriminate Hall.
Qed.

(** C5, the claim at the latitudes 10, nan, 9: no latitude is below the one
    before it, the sort at the root leaves the three records as they are and
    the record of nan latitude becomes the root.  The record to its left has
    the higher latitude of the other two, and no order of the three records
    is ascending in latitude: the root is not the median of a sorted
    sub-collection.  The height, 2, is within the bound. *)
Lemma median_of_nan_latitudes :
  KDTree [fir_10_0; yew_nan_3; ash_9_4]
    = Node yew_nan_3 (_lat yew_nan_3)
           (Node fir_10_0 0 Empty Empty) (Node ash_9_4 4 Empty Empty)
  /\ is_nan (_lat yew_nan_3) = true
  /\ (_lat ash_9_4 <? _lat fir_10_0)%float = true
  /\ ~ (exists sorted,
          Permutation sorted [fir_10_0; yew_nan_3; ash_9_4] /\ ascending 0 sorted).
Proof.
  split; [vm_compute; reflexivity|]. split; [reflexivity|].
  split; [vm_compute; reflexivity|].
  intros (sorted & Hperm & Hasc).
  assert (Hin : In yew_nan_3 sorted).
  { apply (Permutation_in _ (Permutation_sym Hperm)). simpl. auto. }
  pose proof (@nan_is_never_in_order yew_nan_3 sorted eq_refl Hin Hasc) as E.
  subst sorted. apply Permutation_length in Hperm. discriminate Hperm.
Qed.

(** C5, amended: a tree built from N records has at most ceil(log2(N+1))
    levels, whatever the records.  Each node's record is the one at index
    floor(count / 2) of its sub-collection as the node's sort leaves it, the
    records before that index go to the left subtree and those after it to
    the right subtree; when no record of the sub-collection is nan on the
    node's axis, the sub-collection so left is its stable sort, ascending on
    that axis.  The left subtree holds floor(count / 2) records, and the
    pivot is the record's latitude at even depth and its longitude at odd
    depth. *)
Theorem build_tree_height_bound (data : list MunicipalTree) :
  height (KDTree data) <= Nat.log2_up (length data + 1)
  /\ splits_at_median 0 data (KDTree data)
  /\ median_rooted (KDTree data)
  /\ axes_alternate 0 (KDTree data).
Proof.
  split; [|split; [|split]].
  - apply build_tree_height.
    pose proof (Nat.log2_log2_up_spec (length data + 1)). lia.
  - apply build_tree_splits.
  - apply build_tree_median.
  - apply build_tree_axes.
Qed.

(** The records fir (latitude 10) and ash (latitude 9): two levels; the
    root's sub-collection sorted by latitude is [ash, fir], and the root
    holds fir, its record at index 1. *)
Lemma build_tree_height_bound_witness :
  height (KDTree [fir_10_0; ash_9_4]) <= 2
  /\ exists sorted,
       sorted = [ash_9_4; fir_10_0]
       /\ ascending 0 sorted
       /\ nth_error sorted 1 = Some fir_10_0
       /\ KDTree [fir_10_0; ash_9_4] = Node fir_10_0 10 (Node ash_9_4 4 Empty Empty) Empty.
Proof.
  destruct (build_tree_height_bound [fir_10_0; ash_9_4]) as (Hh & Hs & _).
  split; [exact Hh|].
  assert (E : KDTree [fir_10_0; ash_9_4]
              = Node fir_10_0 10 (Node ash_9_4 4 Empty Empty) Empty)
    by (vm_compute; reflexivity).
  rewrite E in Hs. cbn [splits_at_median] in Hs.
  destruct Hs as (sorted & _ & Hc & Hn & _).
  assert (Hnan : no_nan_on (0 mod 2) [fir_10_0; ash_9_4]) by (repeat constructor).
  destruct (Hc Hnan) as [Es Hasc].
  exists sorted. split; [rewrite Es; vm_compute; reflexivity|].
  split; [exact Hasc|]. split; [exact Hn | exact E].
Defined.

(* ===================================================================== *)
(** * Ties on the splitting axis *)
(* ===================================================================== *)

(** C3, at two records of equal latitude: the sort keeps their order, the
    median index 1 picks the second, and the first, whose latitude equals
    the pivot, becomes the left child. *)
Theorem tie_is_placed_left :
  KDTree [oak_1_1; elm_1_2] = Node elm_1_2 1 (Node oak_1_1 1 Empty Empty) Empty
  /\ (axis 0 oak_1_1 <? 1)%float = false
  /\ ~ partitioned 0 (KDTree [oak_1_1; elm_1_2]).
Proof.
  assert (E : KDTree [oak_1_1; elm_1_2]
              = Node elm_1_2 1 (Node oak_1_1 1 Empty Empty) Empty)
    by (vm_compute; reflexivity).
  split; [exact E|]. split; [vm_compute; reflexivity|].
  rewrite E. simpl. intros [H _]. inversion_clear H as [|? ? H1 _].
  vm_compute in H1. discriminate H1.
Qed.

(** C2, on the same two records: the stored record at (1.0, 1.0) is not
    found; the query equals the pivot on latitude and is routed right, past
    the left child that holds it. *)
Theorem stored_record_not_found :
  In oak_1_1 [oak_1_1; elm_1_2]
  /\ lookup (KDTree [oak_1_1; elm_1_2]) (_lat oak_1_1) (_lon oak_1_1) = false.
Proof.
  split; [left; reflexivity | vm_compute; reflexivity].
Qed.

(* ===================================================================== *)
(** * The pruning test of get_nearest *)
(* ===================================================================== *)

(** C1, at the query (13, 4): the root (10, 0) is at distance 5, the squared
    gap to the splitting plane, 9, is not below 5, so the left subtree is
    skipped although its record (9, 4) is at distance 4. *)
Theorem nearest_misses_closer_record :
  get_nearest (KDTree [ash_9_4; fir_10_0]) 13 4 = Ok (Some fir_10_0)
  /\ euclid (_lat fir_10_0) (_lon fir_10_0) 13 4 = Ok 5%float
  /\ euclid (_lat ash_9_4) (_lon ash_9_4) 13 4 = Ok 4%float
  /\ In ash_9_4 (records (KDTree [ash_9_4; fir_10_0]))
  /\ (4 <? 5)%float = true.
Proof.
  repeat split; try (vm_compute; reflexivity).
  vm_compute. left. reflexivity.
Qed.

(* ===================================================================== *)
(** * Which operations raise *)
(* ===================================================================== *)

Lemma raises_only_bind (A B : Type) (e : exn) (m : result A) (k : A -> result B) :
  raises_only e m -> (forall a, raises_only e (k a)) -> raises_only e (x <- m ;; k x).
Proof. destruct m as [a|e']; simpl; auto. Qed.

Lemma pow2_value (x y : float) : pow2 x = Ok y -> y = (x * x)%float.
Proof.
  unfold pow2. destruct (is_infinity (x * x) && negb (is_infinity x)); congruence.
Qed.

Lemma pow2_raises (x : float) : raises_only OverflowError (pow2 x).
Proof.
  unfold pow2. destruct (is_infinity (x * x) && negb (is_infinity x)); simpl; auto.
Qed.

Lemma euclid_raises (a b lat lon : float) :
  raises_only OverflowError (euclid a b lat lon).
Proof.
  unfold euclid.
  pose proof (pow2_raises (a - lat)) as H1. pose proof (pow2_raises (b - lon)) as H2.
  destruct (pow2 (a - lat)) as [dlat|e1] eqn:E1; simpl; [|exact H1].
  destruct (pow2 (b - lon)) as [dlon|e2] eqn:E2; simpl; [|exact H2].
  apply pow2_value in E1, E2. subst dlat dlon.
  unfold math_sqrt. rewrite FloatOrder.sum_of_squares_nonneg. exact I.
Qed.

Lemma _get_nearest_recursive_raises (node : KDT) (lat lon : float) :
  forall depth best,
    raises_only OverflowError (_get_nearest_recursive node lat lon depth best).
Proof.
  induction node as [|tree pivot l IHl r IHr]; intros depth best; simpl; [exact I|].
  apply raises_only_bind; [apply euclid_raises|]. intros dist.
  apply raises_only_bind.
  { destruct (_ <? pivot)%float; [apply IHl | apply IHr]. }
  intros best'. apply raises_only_bind; [apply pow2_raises|]. intros gap.
  destruct (gap <? snd best')%float; [|exact I].
  destruct (_ <? pivot)%float; [apply IHr | apply IHl].
Qed.

(** C8, the query that raises: one record at (1.0, 1.0) and the query
    latitude 2.0 ** 600; the squared difference of latitudes overflows. *)
Lemma get_nearest_overflows :
  get_nearest (KDTree [oak_1_1]) 0x1p600 1 = Raise OverflowError.
Proof. vm_compute. reflexivity. Qed.

Lemma euclid_raises_iff (a b lat lon : float) :
  raises (euclid a b lat lon) = raises (pow2 (a - lat)) || raises (pow2 (b - lon)).
Proof.
  unfold euclid.
  destruct (pow2 (a - lat)) as [dlat|e1] eqn:E1; simpl; [|reflexivity].
  destruct (pow2 (b - lon)) as [dlon|e2] eqn:E2; simpl; [|reflexivity].
  apply pow2_value in E1, E2. subst dlat dlon.
  unfold math_sqrt. rewrite FloatOrder.sum_of_squares_nonneg. reflexivity.
Qed.

(** C8: MunicipalTree.__init__ raises ValueError exactly when int() rejects
    the id, ward or diameter string or float() rejects the lon or lat string,
    and returns the record of the parsed fields otherwise; get_nearest and
    distance_to raise nothing but OverflowError, and distance_to raises it
    exactly when the square of one of the two coordinate differences
    overflows.  (build_tree and lookup raise nothing: they are total
    functions to [KDT] and [bool].) *)
Theorem constructor_and_query_errors
    (py_int : String.string -> option Z) (py_float : String.string -> option float)
    (id ward species diameter lon lat : String.string)
    (self : KDT) (tree : MunicipalTree) (qlat qlon : float) :
  MunicipalTree_init py_int py_float id ward species diameter lon lat =
    match py_int id, py_int ward, py_int diameter, py_float lon, py_float lat with
    | Some i, Some w, Some d, Some x, Some y => Ok (mkMunicipalTree i w species d x y)
    | _, _, _, _, _ => Raise ValueError
    end
  /\ raises_only OverflowError (get_nearest self qlat qlon)
  /\ raises_only OverflowError (distance_to tree qlon qlat)
  /\ raises (distance_to tree qlon qlat) =
     raises (pow2 (qlat - _lat tree)) || raises (pow2 (qlon - _lon tree)).
Proof.
  split; [|split; [|split]].
  - unfold MunicipalTree_init, int_of, float_of.
    destruct (py_int id), (py_int ward), (py_int diameter),
      (py_float lon), (py_float lat); reflexivity.
  - unfold get_nearest. apply raises_only_bind; [|intros; exact I].
    apply _get_nearest_recursive_raises.
  - unfold distance_to. apply raises_only_bind; [|intros; exact I].
    apply euclid_raises.
  - rewrite <- euclid_raises_iff. unfold distance_to.
    destruct (euclid qlat qlon (_lat tree) (_lon tree)); reflexivity.
Qed.

(* ===================================================================== *)
(** * The caller's list object after the constructor *)
(* ===================================================================== *)

Lemma read_write_same h a v : a < length h -> read (write h a v) a = v.
Proof.
  unfold read. revert a. induction h as [|x h IH]; intros a Ha; simpl in *; [lia|].
  destruct a as [|a]; simpl; [reflexivity|]. apply IH. lia.
Qed.

Lemma read_write_other h a b v : b <> a -> read (write h a v) b = read h b.
Proof.
  unfold read. revert a b. induction h as [|x h IH]; intros a b Hab; simpl.
  - reflexivity.
  - destruct a as [|a], b as [|b]; simpl; try reflexivity; try congruence.
    apply IH. congruence.
Qed.

Lemma write_length h a v : length (write h a v) = length h.
Proof.
  revert a. induction h as [|x h IH]; intros a; simpl; [reflexivity|].
  destruct a; simpl; [|rewrite IH]; reflexivity.
Qed.

Lemma read_alloc_old h v b : b < length h -> read (fst (alloc h v)) b = read h b.
Proof. intros Hb. unfold read, alloc. simpl. now rewrite app_nth1. Qed.

Lemma read_alloc_new h v : read (fst (alloc h v)) (snd (alloc h v)) = v.
Proof.
  unfold read, alloc. simpl. rewrite app_nth2, Nat.sub_diag; [reflexivity | lia].
Qed.

(** With fuel above the length of the list, the call returns the tree of
    [build_tree]; the caller's list holds its sorted contents, and no other
    object that existed before the call has changed. *)
Lemma build_tree_at_spec (fuel : nat) :
  forall h data depth,
    data < length h -> length (read h data) < fuel ->
    exists h',
      build_tree_at fuel h data depth = Some (h', build_tree (read h data) depth)
      /\ length h <= length h'
      /\ read h' data = sort_axis (depth mod 2) (read h data)
      /\ forall b, b < length h -> b <> data -> read h' b = read h b.
Proof.
  induction fuel as [|fuel IH]; intros h data depth Hd Hf; [lia|].
  cbn [build_tree_at]. destruct (read h data) as [|t ts] eqn:E.
  - exists h. rewrite build_tree_equation_1. auto.
  - set (l0 := t :: ts) in *.
    assert (Hne : l0 <> []) by discriminate.
    set (dim := depth mod 2). set (s := sort_axis dim l0).
    assert (Hs : length s = length l0) by apply sort_axis_length.
    assert (Hsne : s <> []).
    { intros Es. rewrite Es in Hs. discriminate Hs. }
    set (h1 := write h data s).
    assert (R1 : read h1 data = s) by (apply read_write_same; exact Hd).
    assert (L1 : length h1 = length h) by apply write_length.
    cbv zeta. fold dim. fold s. fold h1. rewrite R1. set (m := length s / 2).
    unfold alloc at 1. set (h2 := h1 ++ [firstn m s]).
    assert (R2 : read h2 (length h1) = firstn m s) by apply (read_alloc_new h1).
    assert (L2 : length h2 = S (length h)).
    { unfold h2. rewrite length_app, L1. simpl. lia. }
    destruct (IH h2 (length h1) (S depth)) as (h3 & B3 & L3 & _ & F3).
    { lia. }
    { rewrite R2. pose proof (slice_left_lt Hsne). fold m in H. lia. }
    rewrite B3, R2.
    assert (R3 : read h3 data = s).
    { rewrite F3; [|lia|lia]. unfold h2.
      rewrite (read_alloc_old h1 (firstn m s)); [exact R1 | lia]. }
    rewrite R3. unfold alloc at 1. set (h4 := h3 ++ [skipn (S m) s]).
    assert (R4 : read h4 (length h3) = skipn (S m) s) by apply (read_alloc_new h3).
    assert (L4 : length h4 = S (length h3)).
    { unfold h4. rewrite length_app. simpl. lia. }
    destruct (IH h4 (length h3) (S depth)) as (h5 & B5 & L5 & _ & F5).
    { lia. }
    { rewrite R4. pose proof (slice_right_lt Hsne). fold m in H. lia. }
    rewrite B5, R4.
    assert (Old : forall b, b < length h -> read h5 b = read h1 b).
    { intros b Hb. rewrite F5; [|lia|lia]. unfold h4.
      rewrite (read_alloc_old h3 (skipn (S m) s)); [|lia].
      rewrite F3; [|lia|lia]. unfold h2.
      apply (read_alloc_old h1 (firstn m s)). lia. }
    exists h5. split; [|split; [lia|split]].
    + rewrite (build_tree_node depth t Hne). reflexivity.
    + rewrite Old; [exact R1 | exact Hd].
    + intros b Hb Hbd. rewrite Old; [|exact Hb].
      apply read_write_other. exact Hbd.
Qed.

Lemma Forall_pairwise (A : Type) (P : A -> Prop) (l : list A) :
  Forall P l -> StronglySorted (fun x y => P x /\ P y) l.
Proof.
  induction 1 as [|x l Hx Hl IH]; constructor; [exact IH|].
  eapply Forall_impl; [|exact Hl]. intros y Hy. now split.
Qed.

Lemma sort_axis_sorted (dim : nat) (data : list MunicipalTree) :
  Forall (fun t => is_nan (axis dim t) = false) data ->
  StronglySorted (fun x y => (axis dim x <=? axis dim y)%float = true)
                 (sort_axis dim data).
Proof.
  intros Hnan. unfold sort_axis.
  apply sorted_by_sorted
    with (B := fun x y => is_nan (axis dim x) = false /\ is_nan (axis dim y) = false).
  - intros x y. apply FloatOrder.lt_le.
  - intros x y [Hx Hy] Hlt. now apply FloatOrder.le_total.
  - intros x y z. apply FloatOrder.le_trans.
  - now apply Forall_pairwise.
Qed.

(** C9, the claim at a list of latitudes 10, nan, 9: no latitude is below
    the one before it, the sort leaves the list as it is, and the caller's
    list ends with latitude 10 ahead of latitude 9: it is not ascending. *)
Lemma callers_list_with_nan_stays_unsorted :
  exists h' t,
    KDTree_at [[fir_10_0; yew_nan_3; ash_9_4]] 0 = Some (h', t)
    /\ read h' 0 = [fir_10_0; yew_nan_3; ash_9_4]
    /\ (_lat ash_9_4 <? _lat fir_10_0)%float = true
    /\ ~ ascending 0 (read h' 0).
Proof.
  assert (H0 : 0 < length [[fir_10_0; yew_nan_3; ash_9_4]]) by (simpl; lia).
  destruct (@build_tree_at_spec (S (length (read [[fir_10_0; yew_nan_3; ash_9_4]] 0)))
              [[fir_10_0; yew_nan_3; ash_9_4]] 0 0 H0)
    as (h' & Hb & _ & Hs & _); [lia|].
  exists h', (build_tree (read [[fir_10_0; yew_nan_3; ash_9_4]] 0) 0).
  assert (E : read h' 0 = [fir_10_0; yew_nan_3; ash_9_4]).
  { rewrite Hs. vm_compute. reflexivity. }
  split; [exact Hb|]. split; [exact E|]. split; [vm_compute; reflexivity|].
  rewrite E. intros Hasc.
  assert (Hin : In yew_nan_3 [fir_10_0; yew_nan_3; ash_9_4]) by (simpl; auto).
  pose proof (@nan_is_never_in_order yew_nan_3 _ eq_refl Hin Hasc) as E'.
  discriminate E'.
Qed.

(** C9, amended: KDTree(data) returns with the caller's list object holding
    a reordering of the records it held before, and no other list that
    existed before the call has changed: the recursive calls work on new
    objects.  When no latitude in the list is nan, the caller's list holds
    the stable sort by latitude of what it held before and is ascending in
    latitude; it is not sorted again at a deeper level.  When no coordinate
    is nan, the tree returned is that of [KDTree] on the list's contents. *)
Theorem constructor_sorts_callers_list (h : heap) (data : nat) :
  data < length h ->
  exists h' t,
    KDTree_at h data = Some (h', t)
    /\ Permutation (read h' data) (read h data)
    /\ (forall b, b < length h -> b <> data -> read h' b = read h b)
    /\ (no_nan_on 0 (read h data) ->
        read h' data = sort_axis 0 (read h data) /\ ascending 0 (read h' data))
    /\ (Forall no_nan (read h data) -> t = KDTree (read h data)).
Proof.
  intros Hd.
  destruct (@build_tree_at_spec (S (length (read h data))) h data 0 Hd)
    as (h' & Hb & _ & Hs & Hf); [lia|].
  exists h', (KDTree (read h data)). change (0 mod 2) with 0 in Hs.
  split; [exact Hb|]. split; [rewrite Hs; apply sorted_by_perm|].
  split; [exact Hf|]. split; [|reflexivity].
  intros Hnan. split; [exact Hs|]. rewrite Hs. now apply sort_axis_ascending.
Qed.

(** The constructor on a heap whose only object is the list [fir, ash]:
    the list ends as [ash, fir]. *)
Lemma constructor_sorts_callers_list_witness :
  exists h' t,
    KDTree_at [[fir_10_0; ash_9_4]] 0 = Some (h', t)
    /\ read h' 0 = [ash_9_4; fir_10_0]
    /\ ascending 0 (read h' 0).
Proof.
  assert (H0 : 0 < length [[fir_10_0; ash_9_4]]) by (simpl; lia).
  destruct (@constructor_sorts_callers_list [[fir_10_0; ash_9_4]] 0 H0)
    as (h' & t & Hb & _ & _ & Hs & _).
  assert (Hnan : no_nan_on 0 (read [[fir_10_0; ash_9_4]] 0)).
  { repeat constructor. }
  destruct (Hs Hnan) as [E Hasc].
  exists h', t. split; [exact Hb|]. split; [|exact Hasc].
  rewrite E. vm_compute. reflexivity.
Defined.

(* ===================================================================== *)
(** * First arrival wins a tie *)
(* ===================================================================== *)

Lemma logged_erases (node : KDT) (lat lon : float) :
  forall depth best,
    _get_nearest_recursive node lat lon depth best =
    (out <- _get_nearest_logged node lat lon depth best ;; Ok (fst out)).
Proof.
  induction node as [|tree pivot l IHl r IHr]; intros depth best; simpl; [reflexivity|].
  destruct (euclid (_lat tree) (_lon tree) lat lon) as [dist|e]; simpl; [|reflexivity].
  set (best1 := if (dist <? snd best)%float then (Some tree, dist) else best).
  set (q := if depth mod 2 =? 0 then lat else lon).
  destruct (q <? pivot)%float.
  - rewrite IHl.
    destruct (_get_nearest_logged l lat lon (S depth) best1) as [near|e]; simpl;
      [|reflexivity].
    destruct (pow2 (pivot - q)) as [gap|e]; simpl; [|reflexivity].
    destruct (gap <? snd (fst near))%float; [|reflexivity].
    rewrite IHr.
    destruct (_get_nearest_logged r lat lon (S depth) (fst near)); reflexivity.
  - rewrite IHr.
    destruct (_get_nearest_logged r lat lon (S depth) best1) as [near|e]; simpl;
      [|reflexivity].
    destruct (pow2 (pivot - q)) as [gap|e]; simpl; [|reflexivity].
    destruct (gap <? snd (fst near))%float; [|reflexivity].
    rewrite IHl.
    destruct (_get_nearest_logged l lat lon (S depth) (fst near)); reflexivity.
Qed.

Lemma scan_app (lat lon : float) (xs ys : list MunicipalTree) :
  forall best,
    scan lat lon (xs ++ ys) best = (b <- scan lat lon xs best ;; scan lat lon ys b).
Proof.
  induction xs as [|x xs IH]; intros best; simpl; [reflexivity|].
  destruct (consider lat lon best x); simpl; [apply IH | reflexivity].
Qed.

(** The search is the strict update run over its own visit order. *)
Lemma logged_is_scan (node : KDT) (lat lon : float) :
  forall depth best out,
    _get_nearest_logged node lat lon depth best = Ok out ->
    scan lat lon (snd out) best = Ok (fst out).
Proof.
  induction node as [|tree pivot l IHl r IHr]; intros depth best out; simpl.
  - intros [= <-]. reflexivity.
  - destruct (euclid (_lat tree) (_lon tree) lat lon) as [dist|e] eqn:Ee; simpl;
      [|discriminate].
    set (best1 := if (dist <? snd best)%float then (Some tree, dist) else best).
    set (q := if depth mod 2 =? 0 then lat else lon).
    assert (Hstep : forall a b : KDT,
      (forall depth best out, _get_nearest_logged a lat lon depth best = Ok out ->
                              scan lat lon (snd out) best = Ok (fst out)) ->
      (forall depth best out, _get_nearest_logged b lat lon depth best = Ok out ->
                              scan lat lon (snd out) best = Ok (fst out)) ->
      (near <- _get_nearest_logged a lat lon (S depth) best1 ;;
       gap <- pow2 (pivot - q) ;;
       if (gap <? snd (fst near))%float
       then far <- _get_nearest_logged b lat lon (S depth) (fst near) ;;
            Ok (fst far, tree :: snd near ++ snd far)
       else Ok (fst near, tree :: snd near)) = Ok out ->
      exists rest, snd out = tree :: rest
                   /\ scan lat lon rest best1 = Ok (fst out)).
    { intros a b Ha Hb.
      destruct (_get_nearest_logged a lat lon (S depth) best1) as [near|e] eqn:En;
        simpl; [|discriminate].
      apply Ha in En.
      destruct (pow2 (pivot - q)) as [gap|e]; simpl; [|discriminate].
      destruct (gap <? snd (fst near))%float.
      - destruct (_get_nearest_logged b lat lon (S depth) (fst near)) as [far|e] eqn:Ef;
          simpl; [|discriminate].
        apply Hb in Ef. intros [= <-]. simpl.
        eexists. split; [reflexivity|].
        rewrite scan_app, En. simpl. exact Ef.
      - intros [= <-]. simpl. eexists. split; [reflexivity | exact En]. }
    intros Hout.
    assert (H : exists rest, snd out = tree :: rest
                             /\ scan lat lon rest best1 = Ok (fst out)).
    { destruct (q <? pivot)%float; [apply (Hstep l r) | apply (Hstep r l)]; assumption. }
    destruct H as (rest & Hs & Hr). rewrite Hs. simpl.
    unfold consider. rewrite Ee. simpl. exact Hr.
Qed.

Lemma farther_not_closer lat lon d tree :
  farther_than lat lon d tree -> not_closer_than lat lon d tree.
Proof.
  intros (dx & E & H). exists dx. split; [exact E|].
  destruct (dx <? d)%float eqn:Hlt; [|reflexivity].
  apply FloatOrder.lt_le in Hlt. congruence.
Qed.

Lemma first_minimum_not_closer lat lon seen best :
  first_minimum lat lon seen best ->
  Forall (not_closer_than lat lon (snd best)) seen.
Proof.
  unfold first_minimum. destruct (fst best) as [r|].
  - intros (before & after & -> & Er & Hb & Ha).
    apply Forall_app. split.
    + eapply Forall_impl; [|exact Hb]. intros x. apply farther_not_closer.
    + constructor; [|exact Ha].
      exists (snd best). split; [exact Er | apply FloatOrder.lt_irrefl].
  - intros [-> H]. exact H.
Qed.

Lemma not_closer_then_farther lat lon d d' tree :
  (d' <? d)%float = true ->
  not_closer_than lat lon d tree -> farther_than lat lon d' tree.
Proof.
  intros Hlt (dx & E & H). exists dx. split; [exact E|].
  destruct (dx <=? d')%float eqn:Hle; [|reflexivity].
  rewrite (FloatOrder.le_lt_trans Hle Hlt) in H. discriminate H.
Qed.

Lemma consider_first_minimum lat lon seen best tree best' :
  first_minimum lat lon seen best ->
  consider lat lon best tree = Ok best' ->
  first_minimum lat lon (seen ++ [tree]) best'.
Proof.
  intros Hinv. unfold consider.
  destruct (euclid (_lat tree) (_lon tree) lat lon) as [dx|e] eqn:E; simpl;
    [|discriminate].
  destruct (dx <? snd best)%float eqn:Hlt; intros [= <-].
  - unfold first_minimum. simpl. exists seen, []. repeat split; auto.
    eapply Forall_impl; [|apply (@first_minimum_not_closer lat lon seen best Hinv)].
    intros x. now apply not_closer_then_farther.
  - revert Hinv. unfold first_minimum. destruct (fst best) as [r|].
    + intros (before & after & -> & Er & Hb & Ha).
      exists before, (after ++ [tree]). rewrite <- app_assoc. simpl.
      repeat split; auto.
      apply Forall_app. split; [exact Ha|]. constructor; [|constructor].
      exists dx. now split.
    + intros [Hinf H]. split; [exact Hinf|].
      apply Forall_app. split; [exact H|]. constructor; [|constructor].
      exists dx. split; [exact E|]. now rewrite <- Hinf.
Qed.

Lemma scan_first_minimum lat lon trees :
  forall seen best best',
    first_minimum lat lon seen best ->
    scan lat lon trees best = Ok best' ->
    first_minimum lat lon (seen ++ trees) best'.
Proof.
  induction trees as [|tree rest IH]; intros seen best best' Hinv; simpl.
  - intros [= <-]. now rewrite app_nil_r.
  - destruct (consider lat lon best tree) as [b1|e] eqn:Ec; simpl; [|discriminate].
    intros Hs. replace (seen ++ tree :: rest) with ((seen ++ [tree]) ++ rest)
      by (rewrite <- app_assoc; reflexivity).
    eapply IH; [|exact Hs]. eapply consider_first_minimum; eassumption.
Qed.

(** C10: when get_nearest returns a record, it stands in the visit order
    with every record visited before it strictly farther from the query
    and no record visited after it closer: of several records at the least
    distance the first one visited is returned, because the candidate is only
    replaced on a strictly smaller distance. *)
Theorem nearest_is_first_minimum (self : KDT) (lat lon : float) (r : MunicipalTree) :
  get_nearest self lat lon = Ok (Some r) ->
  exists before after d,
    visit_order self lat lon = Ok (before ++ r :: after)
    /\ scan lat lon (before ++ r :: after) (None, infinity) = Ok (Some r, d)
    /\ euclid (_lat r) (_lon r) lat lon = Ok d
    /\ Forall (farther_than lat lon d) before
    /\ Forall (not_closer_than lat lon d) after.
Proof.
  unfold get_nearest, visit_order. rewrite logged_erases.
  destruct (_get_nearest_logged self lat lon 0 (None, infinity))
    as [[best trees]|e] eqn:El; simpl; [|discriminate].
  intros [= Hr]. apply logged_is_scan in El. simpl in El.
  assert (Hseed : first_minimum lat lon [] (None, infinity))
    by (split; [reflexivity | constructor]).
  pose proof (@scan_first_minimum lat lon trees [] (None, infinity) best Hseed El) as Hinv. simpl in Hinv.
  unfold first_minimum in Hinv. destruct best as [c d]. simpl in Hr, Hinv. subst c.
  destruct Hinv as (before & after & -> & Er & Hb & Ha).
  exists before, after, d. repeat split; assumption.
Qed.

(** Two records at distance 0.5 from the query (1.0, 1.5): the root elm,
    visited first, is returned. *)
Lemma nearest_is_first_minimum_witness :
  exists before after d,
    visit_order (KDTree [oak_1_1; elm_1_2]) 1 0x1.8p0 = Ok (before ++ elm_1_2 :: after)
    /\ scan 1 0x1.8p0 (before ++ elm_1_2 :: after) (None, infinity) = Ok (Some elm_1_2, d)
    /\ euclid (_lat elm_1_2) (_lon elm_1_2) 1 0x1.8p0 = Ok d
    /\ Forall (farther_than 1 0x1.8p0 d) before
    /\ Forall (not_closer_than 1 0x1.8p0 d) after.
Proof.
  apply (@nearest_is_first_minimum (KDTree [oak_1_1; elm_1_2]) 1 0x1.8p0 elm_1_2).
  vm_compute. reflexivity.
Defined.

(* ===================================================================== *)
(** * What does hold of lookup and of the partition *)
(* ===================================================================== *)

(** lookup answers True only on a stored record whose coordinates, rounded
    to five places, equal the rounded query. *)
Lemma lookup_true_has_match (node : KDT) (lat lon : float) :
  forall depth,
    _lookup_recursive node lat lon depth = true ->
    exists tree,
      In tree (records node)
      /\ (round5 lat =? round5 (_lat tree))%float = true
      /\ (round5 lon =? round5 (_lon tree))%float = true.
Proof.
  induction node as [|tree pivot l IHl r IHr]; intros depth; simpl; [discriminate|].
  destruct ((round5 lat =? round5 (_lat tree))%float
            && (round5 lon =? round5 (_lon tree))%float) eqn:Hm.
  - intros _. apply andb_true_iff in Hm. exists tree. split; [|exact Hm].
    apply in_or_app. right. left. reflexivity.
  - destruct (_ <? pivot)%float; intros H.
    + destruct (IHl _ H) as (x & Hx & Hr). exists x. split; [|exact Hr].
      apply in_or_app. left. exact Hx.
    + destruct (IHr _ H) as (x & Hx & Hr). exists x. split; [|exact Hr].
      apply in_or_app. right. right. exact Hx.
Qed.

Lemma StronglySorted_middle (A : Type) (R : A -> A -> Prop) (a b : list A) (x : A) :
  StronglySorted R (a ++ x :: b) -> Forall (fun y => R y x) a /\ Forall (R x) b.
Proof.
  induction a as [|y a IH]; simpl; intros H; inversion_clear H as [|? ? Hs Hy].
  - split; [constructor | exact Hy].
  - destruct (IH Hs) as [Ha Hb]. split; [|exact Hb].
    constructor; [|exact Ha].
    apply Forall_app in Hy. destruct Hy as [_ Hy]. now inversion_clear Hy.
Qed.

Lemma no_nan_axis (dim : nat) (t : MunicipalTree) :
  no_nan t -> is_nan (axis dim t) = false.
Proof. intros [H1 H2]. destruct dim; assumption. Qed.

Lemma build_tree_weakly_partitioned (data : list MunicipalTree) (depth : nat) :
  Forall no_nan data -> weakly_partitioned depth (build_tree data depth).
Proof.
  apply build_tree_ind
    with (P := fun data depth t => Forall no_nan data -> weakly_partitioned depth t);
    clear data depth.
  - intros depth _. exact I.
  - intros data depth d _ data' median_idx Hm IHl IHr Hok.
    assert (Hok' : Forall no_nan data').
    { apply (Permutation_Forall
               (Permutation_sym (sorted_by_perm (axis (depth mod 2)) ltb data))).
      exact Hok. }
    pose proof (median_split data' d Hm) as Hsplit.
    assert (Hsorted : StronglySorted
              (fun x y => (axis (depth mod 2) x <=? axis (depth mod 2) y)%float = true)
              data').
    { apply sort_axis_sorted. eapply Forall_impl; [|exact Hok].
      intros t. apply no_nan_axis. }
    rewrite Hsplit in Hsorted, Hok'.
    apply StronglySorted_middle in Hsorted. destruct Hsorted as [Hlo Hhi].
    apply Forall_app in Hok'. destruct Hok' as [Hokl Hokr].
    inversion_clear Hokr as [|? ? _ Hokr'].
    simpl. repeat split.
    + apply (Permutation_Forall (Permutation_sym (build_tree_records _ _))). exact Hlo.
    + apply (Permutation_Forall (Permutation_sym (build_tree_records _ _))). exact Hhi.
    + apply IHl. exact Hokl.
    + apply IHr. exact Hokr'.
Qed.

(* ===================================================================== *)
(** * More on the order of floats *)
(* ===================================================================== *)

Module FloatOrderMore.

Lemma SFle_neq_lt x y : SFleb x y = true -> SFeqb x y = false -> SFltb x y = true.
Proof.
  unfold SFleb, SFeqb, SFltb. destruct (SFcompare x y) as [[]|]; congruence.
Qed.

Local Open Scope float_scope.

Lemma le_not_lt a b : (a <=? b) = true -> (b <? a) = false.
Proof.
  intros Hle. destruct (b <? a) eqn:Hlt; [|reflexivity].
  pose proof (FloatOrder.le_lt_trans Hle Hlt) as H.
  rewrite FloatOrder.lt_irrefl in H. discriminate H.
Qed.

Lemma le_neq_lt a b : (a <=? b) = true -> (a =? b) = false -> (a <? b) = true.
Proof. rewrite leb_spec, eqb_spec, ltb_spec. apply SFle_neq_lt. Qed.

Lemma lt_asym a b : (a <? b) = true -> (b <? a) = true -> False.
Proof.
  intros H1 H2. apply FloatOrder.lt_le in H1.
  pose proof (FloatOrder.le_lt_trans H1 H2) as H.
  rewrite FloatOrder.lt_irrefl in H. discriminate H.
Qed.

Lemma not_nan_eqb a : is_nan a = false -> (a =? a) = true.
Proof. unfold is_nan. now rewrite negb_false_iff. Qed.

End FloatOrderMore.

(* ===================================================================== *)
(** * lookup against the partition *)
(* ===================================================================== *)

(** lookup answers True only for a query that some stored record matches
    once both are rounded to five places. *)
Theorem lookup_only_finds_stored_records (self : KDT) (lat lon : float) :
  lookup self lat lon = true ->
  exists tree,
    In tree (records self)
    /\ (round5 lat =? round5 (_lat tree))%float = true
    /\ (round5 lon =? round5 (_lon tree))%float = true.
Proof. apply lookup_true_has_match. Qed.

(** On the tree of the records (9, 4) and (10, 0), the query (9, 4) is
    answered True, and (9, 4) is stored. *)
Lemma lookup_only_finds_stored_records_witness :
  exists tree,
    In tree (records (KDTree [ash_9_4; fir_10_0]))
    /\ (round5 9 =? round5 (_lat tree))%float = true
    /\ (round5 4 =? round5 (_lon tree))%float = true.
Proof.
  apply (@lookup_only_finds_stored_records (KDTree [ash_9_4; fir_10_0]) 9 4).
  vm_compute. reflexivity.
Defined.

Lemma lookup_on_partitioned (node : KDT) (r : MunicipalTree) :
  forall depth,
    partitioned depth node ->
    In r (records node) ->
    rounds_to_number r ->
    _lookup_recursive node (_lat r) (_lon r) depth = true.
Proof.
  intros depth Hp Hin [Hlat Hlon]. revert depth Hp Hin.
  induction node as [|tree pivot l IHl rt IHr]; intros depth Hp Hin; simpl in *;
    [contradiction|].
  destruct Hp as (Hl & Hr & Hpl & Hpr).
  destruct ((round5 (_lat r) =? round5 (_lat tree))%float
            && (round5 (_lon r) =? round5 (_lon tree))%float) eqn:Hm;
    [reflexivity|].
  assert (Hq : (if depth mod 2 =? 0 then _lat r else _lon r) = axis (depth mod 2) r).
  { unfold axis. destruct (depth mod 2); reflexivity. }
  rewrite Hq. apply in_app_or in Hin. destruct Hin as [Hin|[Heq|Hin]].
  - rewrite Forall_forall in Hl. rewrite (Hl r Hin). now apply IHl.
  - subst tree. rewrite !FloatOrderMore.not_nan_eqb in Hm by assumption.
    discriminate Hm.
  - rewrite Forall_forall in Hr.
    rewrite (FloatOrderMore.le_not_lt (Hr r Hin)). now apply IHr.
Qed.

(** On a tree that keeps the partition (left strictly below the pivot, right
    at or above it), lookup finds every stored record whose rounded
    coordinates are numbers. *)
Theorem lookup_finds_records_of_partitioned_tree (self : KDT) (r : MunicipalTree) :
  partitioned 0 self ->
  In r (records self) ->
  rounds_to_number r ->
  lookup self (_lat r) (_lon r) = true.
Proof. intros Hp Hin Hr. unfold lookup. now apply lookup_on_partitioned. Qed.

Lemma partitioned_ash_fir : partitioned 0 (KDTree [ash_9_4; fir_10_0]).
Proof.
  replace (KDTree [ash_9_4; fir_10_0])
    with (Node fir_10_0 10 (Node ash_9_4 4 Empty Empty) Empty)
    by (vm_compute; reflexivity).
  simpl. repeat split; repeat constructor.
Qed.

Lemma lookup_finds_records_of_partitioned_tree_witness :
  lookup (KDTree [ash_9_4; fir_10_0]) (_lat ash_9_4) (_lon ash_9_4) = true.
Proof.
  apply (@lookup_finds_records_of_partitioned_tree (KDTree [ash_9_4; fir_10_0]) ash_9_4).
  - exact partitioned_ash_fir.
  - vm_compute. left. reflexivity.
  - split; vm_compute; reflexivity.
Defined.

(* ===================================================================== *)
(** * The partition a built tree keeps *)
(* ===================================================================== *)

Lemma no_ties_perm (data data' : list MunicipalTree) :
  Permutation data data' -> no_ties data -> no_ties data'.
Proof.
  intros Hp [Hnd Ht]. split.
  - apply (Permutation_NoDup Hp Hnd).
  - intros dim x y Hx Hy. apply Ht; apply (Permutation_in _ (Permutation_sym Hp));
      assumption.
Qed.

Lemma no_ties_split (a b : list MunicipalTree) (m : MunicipalTree) :
  no_ties (a ++ m :: b) ->
  no_ties a /\ no_ties b
  /\ Forall (fun x => forall dim, (axis dim x =? axis dim m)%float = false) a.
Proof.
  intros [Hnd Ht].
  assert (Hnd' := NoDup_remove_1 _ _ _ Hnd).
  assert (Hm := NoDup_remove_2 _ _ _ Hnd).
  apply NoDup_app_remove_l in Hnd as Hb. inversion_clear Hb as [|? ? _ Hb'].
  apply NoDup_app_remove_r in Hnd' as Ha.
  repeat split; try assumption.
  - intros dim x y Hx Hy. apply Ht; apply in_or_app; now left.
  - intros dim x y Hx Hy. apply Ht; apply in_or_app; right; now right.
  - apply Forall_forall. intros x Hx dim.
    destruct (axis dim x =? axis dim m)%float eqn:E; [|reflexivity].
    exfalso. apply Hm. apply in_or_app. left.
    assert (x = m) as <-; [|exact Hx].
    apply (Ht dim); [apply in_or_app; now left | apply in_or_app; right; now left
                    | exact E].
Qed.

Lemma build_tree_partitioned (data : list MunicipalTree) (depth : nat) :
  Forall no_nan data -> no_ties data -> partitioned depth (build_tree data depth).
Proof.
  apply build_tree_ind
    with (P := fun data depth t =>
                 Forall no_nan data -> no_ties data -> partitioned depth t);
    clear data depth.
  - intros depth _ _. exact I.
  - intros data depth d _ data' median_idx Hm IHl IHr Hok Hties.
    pose proof (sorted_by_perm (axis (depth mod 2)) ltb data) as Hperm.
    fold (sort_axis (depth mod 2) data) in Hperm. fold data' in Hperm.
    assert (Hok' : Forall no_nan data')
      by (apply (Permutation_Forall (Permutation_sym Hperm)); exact Hok).
    assert (Hties' : no_ties data')
      by (apply (no_ties_perm (Permutation_sym Hperm)); exact Hties).
    pose proof (median_split data' d Hm) as Hsplit.
    assert (Hsorted : StronglySorted
              (fun x y => (axis (depth mod 2) x <=? axis (depth mod 2) y)%float = true)
              data').
    { apply sort_axis_sorted. eapply Forall_impl; [|exact Hok].
      intros t. apply no_nan_axis. }
    rewrite Hsplit in Hsorted, Hok', Hties'.
    apply StronglySorted_middle in Hsorted. destruct Hsorted as [Hlo Hhi].
    apply Forall_app in Hok'. destruct Hok' as [Hokl Hokr].
    inversion_clear Hokr as [|? ? _ Hokr'].
    apply no_ties_split in Hties'. destruct Hties' as (Htl & Htr & Hne).
    simpl. repeat split.
    + apply (Permutation_Forall (Permutation_sym (build_tree_records _ _))).
      rewrite Forall_forall in Hlo, Hne. apply Forall_forall. intros x Hx.
      apply FloatOrderMore.le_neq_lt; [now apply Hlo | now apply Hne].
    + apply (Permutation_Forall (Permutation_sym (build_tree_records _ _))). exact Hhi.
    + now apply IHl.
    + now apply IHr.
Qed.

(** When no coordinate is nan, a built tree keeps at every node: records of
    the left subtree at or below the pivot on the node's axis, records of the
    right subtree at or above it. *)
Theorem built_tree_is_weakly_partitioned (data : list MunicipalTree) :
  Forall no_nan data -> weakly_partitioned 0 (KDTree data).
Proof. apply build_tree_weakly_partitioned. Qed.

Lemma no_nan_oak_elm : Forall no_nan [oak_1_1; elm_1_2].
Proof. repeat constructor. Qed.

Lemma built_tree_is_weakly_partitioned_witness :
  weakly_partitioned 0 (KDTree [oak_1_1; elm_1_2]).
Proof.
  apply (@built_tree_is_weakly_partitioned [oak_1_1; elm_1_2]).
  exact no_nan_oak_elm.
Defined.

(** When, besides, no two records tie on latitude or on longitude, a built
    tree keeps the strict partition: left strictly below the pivot. *)
Theorem built_tree_without_ties_is_partitioned (data : list MunicipalTree) :
  Forall no_nan data -> no_ties data -> partitioned 0 (KDTree data).
Proof. apply build_tree_partitioned. Qed.

Lemma no_nan_ash_fir : Forall no_nan [ash_9_4; fir_10_0].
Proof. repeat constructor. Qed.

Lemma no_ties_ash_fir : no_ties [ash_9_4; fir_10_0].
Proof.
  split.
  - constructor; [|constructor; [intros []|constructor]].
    intros [H|[]]. discriminate H.
  - intros dim x y [<-|[<-|[]]] [<-|[<-|[]]] H; try reflexivity;
      destruct dim; vm_compute in H; discriminate H.
Qed.

Lemma built_tree_without_ties_is_partitioned_witness :
  partitioned 0 (KDTree [ash_9_4; fir_10_0]).
Proof.
  apply (@built_tree_without_ties_is_partitioned [ash_9_4; fir_10_0]).
  - exact no_nan_ash_fir.
  - exact no_ties_ash_fir.
Defined.

(** Build, then look up: when no coordinate is nan and no two records tie on
    an axis, lookup finds every input record whose rounded coordinates are
    numbers. *)
Theorem lookup_finds_every_record_without_ties
    (data : list MunicipalTree) (r : MunicipalTree) :
  Forall no_nan data -> no_ties data -> In r data -> rounds_to_number r ->
  lookup (KDTree data) (_lat r) (_lon r) = true.
Proof.
  intros Hok Hties Hin Hr. unfold lookup. apply lookup_on_partitioned.
  - now apply build_tree_partitioned.
  - apply (Permutation_in _ (Permutation_sym (build_tree_records data 0))). exact Hin.
  - exact Hr.
Qed.

Lemma lookup_finds_every_record_without_ties_witness :
  lookup (KDTree [ash_9_4; fir_10_0]) (_lat fir_10_0) (_lon fir_10_0) = true.
Proof.
  apply (@lookup_finds_every_record_without_ties [ash_9_4; fir_10_0] fir_10_0).
  - exact no_nan_ash_fir.
  - exact no_ties_ash_fir.
  - right. left. reflexivity.
  - split; vm_compute; reflexivity.
Defined.

(* ===================================================================== *)
(** * What get_nearest returns *)
(* ===================================================================== *)

Lemma _get_nearest_recursive_candidate (node : KDT) (lat lon : float) :
  forall depth best best',
    _get_nearest_recursive node lat lon depth best = Ok best' ->
    fst best' = fst best
    \/ exists r, fst best' = Some r /\ In r (records node).
Proof.
  induction node as [|tree pivot l IHl r IHr]; intros depth best best'; simpl.
  - intros [= <-]. now left.
  - destruct (euclid (_lat tree) (_lon tree) lat lon) as [dist|e]; simpl;
      [|discriminate].
    set (best1 := if (dist <? snd best)%float then (Some tree, dist) else best).
    assert (H1 : fst best1 = fst best
                 \/ exists x, fst best1 = Some x /\ In x (records l ++ tree :: records r)).
    { unfold best1. destruct (dist <? snd best)%float; [right|now left].
      exists tree. split; [reflexivity|]. apply in_or_app. right. now left. }
    set (q := if depth mod 2 =? 0 then lat else lon).
    assert (Hstep : forall a b : KDT,
      (forall x, In x (records a) -> In x (records l ++ tree :: records r)) ->
      (forall x, In x (records b) -> In x (records l ++ tree :: records r)) ->
      (forall depth best best',
         _get_nearest_recursive a lat lon depth best = Ok best' ->
         fst best' = fst best \/ exists x, fst best' = Some x /\ In x (records a)) ->
      (forall depth best best',
         _get_nearest_recursive b lat lon depth best = Ok best' ->
         fst best' = fst best \/ exists x, fst best' = Some x /\ In x (records b)) ->
      (best2 <- _get_nearest_recursive a lat lon (S depth) best1 ;;
       gap <- pow2 (pivot - q) ;;
       if (gap <? snd best2)%float
       then _get_nearest_recursive b lat lon (S depth) best2
       else Ok best2) = Ok best' ->
      fst best' = fst best
      \/ exists x, fst best' = Some x /\ In x (records l ++ tree :: records r)).
    { intros a b Sa Sb Ha Hb.
      destruct (_get_nearest_recursive a lat lon (S depth) best1) as [best2|e] eqn:E2;
        simpl; [|discriminate].
      assert (H2 : fst best2 = fst best
                   \/ exists x, fst best2 = Some x
                                /\ In x (records l ++ tree :: records r)).
      { destruct (Ha _ _ _ E2) as [Eq|(x & Ex & Hx)].
        - rewrite Eq. exact H1.
        - right. exists x. split; [exact Ex | now apply Sa]. }
      destruct (pow2 (pivot - q)) as [gap|e]; simpl; [|discriminate].
      destruct (gap <? snd best2)%float.
      - intros E3. destruct (Hb _ _ _ E3) as [Eq|(x & Ex & Hx)].
        + rewrite Eq. exact H2.
        + right. exists x. split; [exact Ex | now apply Sb].
      - intros [= <-]. exact H2. }
    assert (Sl : forall x, In x (records l) -> In x (records l ++ tree :: records r))
      by (intros x Hx; apply in_or_app; now left).
    assert (Sr : forall x, In x (records r) -> In x (records l ++ tree :: records r))
      by (intros x Hx; apply in_or_app; right; now right).
    destruct (q <? pivot)%float; [apply (Hstep l r) | apply (Hstep r l)]; assumption.
Qed.

(** The record get_nearest returns is one of the records stored in the
    tree. *)
Theorem nearest_is_a_stored_record (self : KDT) (lat lon : float) (r : MunicipalTree) :
  get_nearest self lat lon = Ok (Some r) -> In r (records self).
Proof.
  unfold get_nearest.
  destruct (_get_nearest_recursive self lat lon 0 (None, infinity)) as [best|e] eqn:E;
    simpl; [|discriminate].
  intros [= Hr].
  destruct (_get_nearest_recursive_candidate _ _ _ _ _ E) as [Eq|(x & Ex & Hx)].
  - rewrite Hr in Eq. discriminate Eq.
  - rewrite Hr in Ex. injection Ex as <-. exact Hx.
Qed.

Lemma nearest_is_a_stored_record_witness :
  In fir_10_0 (records (KDTree [ash_9_4; fir_10_0])).
Proof.
  apply (@nearest_is_a_stored_record (KDTree [ash_9_4; fir_10_0]) 13 4 fir_10_0).
  vm_compute. reflexivity.
Defined.

Lemma _get_nearest_recursive_keeps_candidate (node : KDT) (lat lon : float) :
  forall depth best best',
    _get_nearest_recursive node lat lon depth best = Ok best' ->
    fst best <> None -> fst best' <> None.
Proof.
  intros depth best best' E Hb.
  destruct (_get_nearest_recursive_candidate _ _ _ _ _ E) as [Eq|(x & Ex & _)].
  - now rewrite Eq.
  - rewrite Ex. discriminate.
Qed.

(** On a non-empty tree whose root record is at a distance below infinity
    from the query, get_nearest, when it raises nothing, returns a record and
    not None. *)
Theorem nearest_is_not_none (tree : MunicipalTree) (pivot : float) (l r : KDT)
    (lat lon d : float) (res : option MunicipalTree) :
  euclid (_lat tree) (_lon tree) lat lon = Ok d ->
  (d <? infinity)%float = true ->
  get_nearest (Node tree pivot l r) lat lon = Ok res ->
  exists x, res = Some x.
Proof.
  intros Ed Hd. unfold get_nearest.
  destruct (_get_nearest_recursive (Node tree pivot l r) lat lon 0 (None, infinity))
    as [best|e] eqn:E; simpl; [|discriminate].
  intros [= <-]. simpl in E. rewrite Ed in E. simpl in E. rewrite Hd in E.
  assert (Hsome : fst best <> None).
  { destruct (lat <? pivot)%float.
    - destruct (_get_nearest_recursive l lat lon 1 (Some tree, d)) as [b2|e] eqn:E2;
        simpl in E; [|discriminate E].
      pose proof (_get_nearest_recursive_keeps_candidate _ _ _ _ _ E2) as H2.
      destruct (pow2 (pivot - lat)) as [gap|e]; simpl in E; [|discriminate E].
      destruct (gap <? snd b2)%float.
      + apply (_get_nearest_recursive_keeps_candidate _ _ _ _ _ E).
        apply H2. discriminate.
      + injection E as <-. apply H2. discriminate.
    - destruct (_get_nearest_recursive r lat lon 1 (Some tree, d)) as [b2|e] eqn:E2;
        simpl in E; [|discriminate E].
      pose proof (_get_nearest_recursive_keeps_candidate _ _ _ _ _ E2) as H2.
      destruct (pow2 (pivot - lat)) as [gap|e]; simpl in E; [|discriminate E].
      destruct (gap <? snd b2)%float.
      + apply (_get_nearest_recursive_keeps_candidate _ _ _ _ _ E).
        apply H2. discriminate.
      + injection E as <-. apply H2. discriminate. }
  destruct (fst best) as [x|]; [now exists x | congruence].
Qed.

Lemma nearest_is_not_none_witness : exists x, Some fir_10_0 = Some x.
Proof.
  apply (@nearest_is_not_none fir_10_0 10 (Node ash_9_4 4 Empty Empty) Empty
           13 4 5 (Some fir_10_0)); vm_compute; reflexivity.
Defined.

(* ===================================================================== *)
(** * More on the shape and on the order of the input *)
(* ===================================================================== *)

Lemma size_lt_pow2_height (t : KDT) : size t < 2 ^ height t.
Proof.
  induction t as [|tree pivot l IHl r IHr]; simpl; [lia|].
  assert (2 ^ height l <= 2 ^ Nat.max (height l) (height r))
    by (apply Nat.pow_le_mono_r; lia).
  assert (2 ^ height r <= 2 ^ Nat.max (height l) (height r))
    by (apply Nat.pow_le_mono_r; lia).
  lia.
Qed.

(** A tree built from N records has exactly ceil(log2(N+1)) levels. *)
Theorem built_tree_height_is_log2 (data : list MunicipalTree) :
  height (KDTree data) = Nat.log2_up (length data + 1).
Proof.
  apply Nat.le_antisymm.
  - apply build_tree_height.
    pose proof (Nat.log2_log2_up_spec (length data + 1)). lia.
  - apply Nat.log2_up_le_pow2; [lia|].
    pose proof (size_lt_pow2_height (KDTree data)) as H.
    unfold KDTree in H at 1. rewrite build_tree_size in H. lia.
Qed.

Lemma map_nth_seq (A : Type) (d : A) (s : list A) :
  map (fun i => nth i s d) (List.seq 0 (length s)) = s.
Proof.
  induction s as [|x s IH]; simpl; [reflexivity|].
  f_equal. rewrite <- seq_shift, map_map. exact IH.
Qed.

Lemma StronglySorted_map (A B : Type) (f : A -> B) (R : B -> B -> Prop) (l : list A) :
  StronglySorted (fun x y => R (f x) (f y)) l -> StronglySorted R (map f l).
Proof.
  induction 1 as [|x l Hl IH Hx]; simpl; constructor; [exact IH|].
  apply Forall_map. exact Hx.
Qed.

(** Reading the sequence through the indices argsort returns gives the
    sequence's own values in ascending order: a sorted rearrangement of it,
    of the same length. *)
Theorem argsort_sorts_the_values (s : list Z) :
  let sorted_values := map (fun i => nth i s 0%Z) (argsort s) in
  Permutation sorted_values s
  /\ StronglySorted Z.le sorted_values
  /\ length (argsort s) = length s.
Proof.
  cbv zeta. split; [|split].
  - rewrite <- (map_nth_seq 0%Z s) at 2. apply Permutation_map.
    unfold argsort. apply sorted_by_perm.
  - apply StronglySorted_map. generalize (argsort_lex_sorted s).
    apply StronglySorted_impl. unfold by_value_then_index. intros i j [H|[H _]]; lia.
  - unfold argsort. rewrite sorted_by_length. apply length_seq.
Qed.

(** A list of the indices 0..N-1 along which the values ascend, with the
    indices of equal values in increasing order, is the list argsort
    returns: the result does not depend on the sorting algorithm. *)
Theorem argsort_is_the_stable_order (s : list Z) (l : list nat) :
  Permutation l (List.seq 0 (length s)) ->
  StronglySorted (by_value_then_index s) l ->
  argsort s = l.
Proof. intros Hp Hs. symmetry. now apply argsort_unique. Qed.

Lemma argsort_is_the_stable_order_witness : argsort [4; 2; 2; 3]%Z = [1; 2; 3; 0].
Proof.
  apply (@argsort_is_the_stable_order [4; 2; 2; 3]%Z [1; 2; 3; 0]).
  - simpl. apply Permutation_sym.
    change [0; 1; 2; 3] with ([0] ++ [1; 2; 3]).
    change [1; 2; 3; 0] with ([1; 2; 3] ++ [0]).
    apply Permutation_app_comm.
  - unfold by_value_then_index.
    repeat (constructor; [|repeat (constructor; [simpl; lia|])]); constructor.
Defined.

Section SortIdempotent.

Variables A K : Type.
Variable key : A -> K.
Variable ltb : K -> K -> bool.
Variable R : A -> A -> Prop.
Hypothesis R_not_above : forall x y, R x y -> ltb (key y) (key x) = false.

(** Sorting a sorted list changes nothing. *)
Lemma sorted_by_sorted_id (l : list A) :
  StronglySorted R l -> sorted_by key ltb l = l.
Proof.
  induction 1 as [|x l Hl IH Hx]; simpl; [reflexivity|].
  rewrite IH. destruct l as [|y l']; simpl; [reflexivity|].
  inversion_clear Hx as [|? ? Hxy _]. now rewrite (R_not_above Hxy).
Qed.

End SortIdempotent.

Lemma sort_axis_idempotent (dim : nat) (data : list MunicipalTree) :
  Forall (fun t => is_nan (axis dim t) = false) data ->
  sort_axis dim (sort_axis dim data) = sort_axis dim data.
Proof.
  intros Hnan. unfold sort_axis at 1.
  apply sorted_by_sorted_id
    with (R := fun x y => (axis dim x <=? axis dim y)%float = true).
  - intros x y. apply FloatOrderMore.le_not_lt.
  - now apply sort_axis_sorted.
Qed.

(** [build_tree] reads its input only through the sorted list. *)
Lemma build_tree_of_sorted (data data' : list MunicipalTree) (depth : nat) :
  sort_axis (depth mod 2) data = sort_axis (depth mod 2) data' ->
  build_tree data depth = build_tree data' depth.
Proof.
  intros Hs. destruct data as [|t ts].
  - destruct data' as [|t' ts']; [reflexivity|].
    apply (f_equal (@length _)) in Hs. rewrite !sort_axis_length in Hs.
    discriminate Hs.
  - assert (Hne : t :: ts <> []) by discriminate.
    assert (Hne' : data' <> []).
    { intros ->. apply (f_equal (@length _)) in Hs. rewrite !sort_axis_length in Hs.
      discriminate Hs. }
    rewrite (build_tree_node depth t Hne), (build_tree_node depth t Hne').
    cbv zeta. rewrite Hs. reflexivity.
Qed.


(** Constructing a second index from the same list object, which the first
    construction left sorted, gives the same tree again and leaves the list as
    it was (no latitude being nan). *)
Theorem second_construction_gives_same_tree (h : heap) (data : nat) :
  data < length h ->
  Forall (fun t => is_nan (_lat t) = false) (read h data) ->
  exists h1 h2 t,
    KDTree_at h data = Some (h1, t)
    /\ KDTree_at h1 data = Some (h2, t)
    /\ read h2 data = read h1 data.
Proof.
  intros Hd Hnan.
  destruct (@build_tree_at_spec (S (length (read h data))) h data 0 Hd)
    as (h1 & B1 & L1 & S1 & _); [lia|].
  assert (Hd1 : data < length h1) by lia.
  destruct (@build_tree_at_spec (S (length (read h1 data))) h1 data 0 Hd1)
    as (h2 & B2 & _ & S2 & _); [lia|].
  change (0 mod 2) with 0 in S1, S2.
  assert (Hidem : sort_axis 0 (read h1 data) = read h1 data).
  { rewrite S1. now apply (sort_axis_idempotent 0). }
  exists h1, h2, (build_tree (read h data) 0). split; [exact B1|]. split.
  - unfold KDTree_at. rewrite B2. do 2 f_equal.
    apply build_tree_of_sorted. change (0 mod 2) with 0.
    rewrite Hidem. exact S1.
  - rewrite S2. exact Hidem.
Qed.

Lemma second_construction_gives_same_tree_witness :
  exists h1 h2 t,
    KDTree_at [[fir_10_0; ash_9_4]] 0 = Some (h1, t)
    /\ KDTree_at h1 0 = Some (h2, t)
    /\ read h2 0 = read h1 0.
Proof.
  apply (@second_construction_gives_same_tree [[fir_10_0; ash_9_4]] 0).
  - simpl. lia.
  - repeat constructor.
Defined.

Lemma sorted_without_ties_is_strict (dim : nat) (l : list MunicipalTree) :
  no_ties l ->
  StronglySorted (fun x y => (axis dim x <=? axis dim y)%float = true) l ->
  StronglySorted (fun x y => (axis dim x <? axis dim y)%float = true) l.
Proof.
  intros Hties. induction 1 as [|x l Hl IH Hx]; constructor.
  - apply IH. destruct Hties as [Hnd Ht]. inversion_clear Hnd as [|? ? _ Hnd'].
    split; [exact Hnd'|]. intros d a b Ha Hb. apply Ht; now right.
  - destruct Hties as [Hnd Ht]. inversion_clear Hnd as [|? ? Hnotin _].
    rewrite Forall_forall in Hx. apply Forall_forall. intros y Hy.
    apply FloatOrderMore.le_neq_lt; [now apply Hx|].
    destruct (axis dim x =? axis dim y)%float eqn:E; [|reflexivity].
    exfalso. apply Hnotin.
    assert (x = y) as ->; [|exact Hy].
    apply (Ht dim); [now left | now right | exact E].
Qed.

(** When no coordinate is nan and no two records tie on an axis, the tree
    depends on which records are given and not on their order in the list. *)
Theorem built_tree_ignores_input_order (data data' : list MunicipalTree) :
  Permutation data data' ->
  Forall no_nan data -> no_ties data ->
  KDTree data' = KDTree data.
Proof.
  intros Hp Hok Hties. unfold KDTree. apply build_tree_of_sorted.
  change (0 mod 2) with 0.
  assert (Hok' : Forall no_nan data') by (apply (Permutation_Forall Hp); exact Hok).
  assert (Hties' : no_ties data') by (apply (no_ties_perm Hp); exact Hties).
  assert (Strict : forall l, Forall no_nan l -> no_ties l ->
            StronglySorted (fun x y => (axis 0 x <? axis 0 y)%float = true)
                           (sort_axis 0 l)).
  { intros l Hl Hn. apply sorted_without_ties_is_strict.
    - apply (no_ties_perm (Permutation_sym (sorted_by_perm (axis 0) ltb l))). exact Hn.
    - apply sort_axis_sorted. eapply Forall_impl; [|exact Hl].
      intros t. apply no_nan_axis. }
  apply sorted_perm_unique
    with (R := fun x y => (axis 0 x <? axis 0 y)%float = true).
  - intros x y. apply FloatOrderMore.lt_asym.
  - now apply Strict.
  - now apply Strict.
  - unfold sort_axis. rewrite !sorted_by_perm. now apply Permutation_sym.
Qed.

Lemma built_tree_ignores_input_order_witness :
  KDTree [fir_10_0; ash_9_4] = KDTree [ash_9_4; fir_10_0].
Proof.
  apply (@built_tree_ignores_input_order [ash_9_4; fir_10_0] [fir_10_0; ash_9_4]).
  - apply perm_swap.
  - exact no_nan_ash_fir.
  - exact no_ties_ash_fir.
Defined.

(* ===================================================================== *)
(** * Differences of floats and the distance *)
(* ===================================================================== *)

Module FloatSub.

Lemma binary_round_aux_opp prec emax s m e l :
  binary_round_aux prec emax (negb s) m e l
  = SFopp (binary_round_aux prec emax s m e l).
Proof.
  unfold binary_round_aux.
  destruct (shr_fexp prec emax m e l) as [mrs' e'].
  destruct (shr_fexp prec emax _ e' loc_Exact) as [mrs'' e''].
  destruct (shr_m mrs''); simpl; auto.
  destruct (Z.leb e'' (emax - prec)); reflexivity.
Qed.

Lemma binary_normalize_opp prec emax m e :
  binary_normalize prec emax (- m) e false
  = SFopp (binary_normalize prec emax m e false)
  \/ m = 0%Z.
Proof.
  destruct m as [|p|p]; [now right| |]; left; simpl; unfold binary_round;
    destruct (shl_align _ _ _) as [mz ez].
  - apply (binary_round_aux_opp prec emax false).
  - rewrite (binary_round_aux_opp prec emax false).
    destruct (binary_round_aux _ _ _ _ _ _) as [[]|[]| |[] ? ?]; reflexivity.
Qed.

(** [c - a] is [a - c] with the sign changed. *)
Lemma SFsub_swap prec emax a c :
  SFmirror (SFsub prec emax a c) (SFsub prec emax c a).
Proof.
  unfold SFmirror.
  destruct a as [sa|sa| |sa ma ea], c as [sc|sc| |sc mc ec]; simpl;
    try (left; reflexivity);
    try (destruct sa, sc; simpl; (left; reflexivity) || (right; eauto); fail).
  all: try (left; destruct sa; reflexivity).
  all: try (left; destruct sc; reflexivity).
  rewrite (Z.min_comm ec ea).
  set (A := cond_Zopp sa _). set (C := cond_Zopp sc _).
  replace (C - A)%Z with (- (A - C))%Z by lia.
  destruct (binary_normalize_opp prec emax (A - C) (Z.min ea ec)) as [H|H].
  - left. exact H.
  - right. rewrite H. simpl. eauto.
Qed.

Lemma SFmul_mirror prec emax u v :
  SFmirror u v -> SFmul prec emax v v = SFmul prec emax u u.
Proof.
  intros [->|(s & s' & -> & ->)].
  - destruct u as [s|s| |s m e]; simpl; try reflexivity; destruct s; reflexivity.
  - simpl. destruct s, s'; reflexivity.
Qed.

Lemma SFabs_mirror u v : SFmirror u v -> SFabs v = SFabs u.
Proof.
  intros [->|(s & s' & -> & ->)]; [destruct u; reflexivity | reflexivity].
Qed.

Local Open Scope float_scope.

Lemma sub_swap_square a c : (c - a) * (c - a) = (a - c) * (a - c).
Proof.
  apply Prim2SF_inj. rewrite !mul_spec, !sub_spec.
  apply SFmul_mirror, SFsub_swap.
Qed.

Lemma sub_swap_is_infinity a c : is_infinity (c - a) = is_infinity (a - c).
Proof.
  unfold is_infinity. rewrite !eqb_spec, !abs_spec, !sub_spec.
  f_equal. apply SFabs_mirror, SFsub_swap.
Qed.

Lemma finite_cases x :
  is_finite x = true ->
  (exists s, Prim2SF x = S754_zero s) \/ exists s m e, Prim2SF x = S754_finite s m e.
Proof.
  unfold is_finite. rewrite negb_true_iff, orb_false_iff. intros [Hn Hi].
  unfold Prim2SF. rewrite Hn. destruct (is_zero x); [left; eauto|].
  rewrite Hi. destruct (Z.frexp x) as [r ex].
  destruct (shr_fexp _ _ _ _ _) as [shr e']. destruct (shr_m shr); eauto.
Qed.

(** A finite float minus itself is [+0.0]. *)
Lemma sub_self x : is_finite x = true -> x - x = 0.
Proof.
  intros Hf. apply Prim2SF_inj. rewrite sub_spec.
  change (Prim2SF 0) with (S754_zero false).
  destruct (@finite_cases x Hf) as [(s & ->)|(s & m & e & ->)]; simpl.
  - destruct s; reflexivity.
  - rewrite Z.min_id, Z.sub_diag. reflexivity.
Qed.

End FloatSub.

Lemma pow2_swap (a c : float) : pow2 (c - a) = pow2 (a - c).
Proof.
  unfold pow2. now rewrite FloatSub.sub_swap_square, FloatSub.sub_swap_is_infinity.
Qed.

Lemma euclid_swap (a b c d : float) : euclid c d a b = euclid a b c d.
Proof. unfold euclid. now rewrite (pow2_swap a c), (pow2_swap b d). Qed.

(** The distance is symmetric, and it is the distance get_nearest compares:
    [distance_to] from one record to the position of another is the same
    either way round (error included), and it is the value
    [_get_nearest_recursive] computes for the record at that query, rounded
    to five places. *)
Theorem distance_to_is_symmetric (t u : MunicipalTree) (lon lat : float) :
  distance_to t (_lon u) (_lat u) = distance_to u (_lon t) (_lat t)
  /\ distance_to t lon lat = (d <- euclid (_lat t) (_lon t) lat lon ;; Ok (round5 d)).
Proof.
  unfold distance_to. split.
  - now rewrite euclid_swap.
  - now rewrite euclid_swap.
Qed.

(** A record with finite coordinates is at distance 0.0 from its own
    position. *)
Theorem distance_to_own_position_is_zero (t : MunicipalTree) :
  is_finite (_lat t) = true -> is_finite (_lon t) = true ->
  distance_to t (_lon t) (_lat t) = Ok 0%float.
Proof.
  intros Hlat Hlon. unfold distance_to, euclid.
  rewrite (FloatSub.sub_self (_lat t) Hlat), (FloatSub.sub_self (_lon t) Hlon).
  vm_compute. reflexivity.
Qed.

Lemma distance_to_own_position_is_zero_witness :
  distance_to ash_9_4 (_lon ash_9_4) (_lat ash_9_4) = Ok 0%float.
Proof.
  apply (@distance_to_own_position_is_zero ash_9_4); vm_compute; reflexivity.
Defined.

(* ===================================================================== *)
(** * What get_nearest visits *)
(* ===================================================================== *)

Lemma perm_interleave (A : Type) (a b c d : list A) :
  Permutation ((a ++ b) ++ (c ++ d)) ((a ++ c) ++ (b ++ d)).
Proof.
  rewrite <- !app_assoc. apply Permutation_app_head.
  rewrite !app_assoc. apply Permutation_app_tail. apply Permutation_app_comm.
Qed.

Lemma logged_visits_once (node : KDT) (lat lon : float) :
  forall depth best out,
    _get_nearest_logged node lat lon depth best = Ok out ->
    (exists rest, Permutation (snd out ++ rest) (records node))
    /\ match node with
       | Empty => snd out = []
       | Node tree _ _ _ => hd_error (snd out) = Some tree
       end.
Proof.
  induction node as [|tree pivot l IHl r IHr]; intros depth best out; simpl.
  - intros [= <-]. split; [exists []|]; reflexivity.
  - destruct (euclid (_lat tree) (_lon tree) lat lon) as [dist|e]; simpl;
      [|discriminate].
    set (best1 := if (dist <? snd best)%float then (Some tree, dist) else best).
    set (q := if depth mod 2 =? 0 then lat else lon).
    assert (Hstep : forall a b : KDT,
      (forall depth best out, _get_nearest_logged a lat lon depth best = Ok out ->
         exists rest, Permutation (snd out ++ rest) (records a)) ->
      (forall depth best out, _get_nearest_logged b lat lon depth best = Ok out ->
         exists rest, Permutation (snd out ++ rest) (records b)) ->
      (near <- _get_nearest_logged a lat lon (S depth) best1 ;;
       gap <- pow2 (pivot - q) ;;
       if (gap <? snd (fst near))%float
       then far <- _get_nearest_logged b lat lon (S depth) (fst near) ;;
            Ok (fst far, tree :: snd near ++ snd far)
       else Ok (fst near, tree :: snd near)) = Ok out ->
      exists visited rest,
        snd out = tree :: visited
        /\ Permutation (visited ++ rest) (records a ++ records b)).
    { intros a b Ha Hb.
      destruct (_get_nearest_logged a lat lon (S depth) best1) as [near|e] eqn:En;
        simpl; [|discriminate].
      destruct (Ha _ _ _ En) as (r1 & P1).
      destruct (pow2 (pivot - q)) as [gap|e]; simpl; [|discriminate].
      destruct (gap <? snd (fst near))%float.
      - destruct (_get_nearest_logged b lat lon (S depth) (fst near)) as [far|e] eqn:Ef;
          simpl; [|discriminate].
        destruct (Hb _ _ _ Ef) as (r2 & P2). intros [= <-]. simpl.
        exists (snd near ++ snd far), (r1 ++ r2). split; [reflexivity|].
        rewrite perm_interleave. now apply Permutation_app.
      - intros [= <-]. simpl. exists (snd near), (r1 ++ records b).
        split; [reflexivity|]. rewrite app_assoc. now apply Permutation_app_tail. }
    intros Hout.
    assert (H : exists visited rest,
               snd out = tree :: visited
               /\ Permutation (visited ++ rest) (records l ++ records r)).
    { destruct (q <? pivot)%float.
      - apply (Hstep l r);
          [intros d b o Ho; exact (proj1 (IHl d b o Ho)) |
           intros d b o Ho; exact (proj1 (IHr d b o Ho)) | exact Hout].
      - destruct (Hstep r l) as (v & rest & Hv & Hp);
          [intros d b o Ho; exact (proj1 (IHr d b o Ho)) |
           intros d b o Ho; exact (proj1 (IHl d b o Ho)) | exact Hout |].
        exists v, rest. split; [exact Hv|]. rewrite Hp. apply Permutation_app_comm. }
    destruct H as (visited & rest & Hv & Hp). rewrite Hv. split; [|reflexivity].
    exists rest. simpl. now apply Permutation_cons_app.
Qed.

(** get_nearest computes the distance of each node's record at most once and
    of the root's first: the records it visits, with those it skips, are the
    stored records, so it visits no more than there are nodes. *)
Theorem nearest_visits_each_node_once (self : KDT) (lat lon : float)
    (visited : list MunicipalTree) :
  visit_order self lat lon = Ok visited ->
  (exists skipped, Permutation (visited ++ skipped) (records self))
  /\ length visited <= size self
  /\ match self with
     | Empty => visited = []
     | Node tree _ _ _ => hd_error visited = Some tree
     end.
Proof.
  unfold visit_order.
  destruct (_get_nearest_logged self lat lon 0 (None, infinity)) as [out|e] eqn:E;
    simpl; [|discriminate].
  intros [= <-]. destruct (logged_visits_once _ _ _ _ _ E) as [(rest & Hp) Hhd].
  split; [now exists rest|]. split; [|exact Hhd].
  rewrite size_records, <- (Permutation_length Hp), length_app. lia.
Qed.

Lemma nearest_visits_each_node_once_witness :
  (exists skipped,
     Permutation ([fir_10_0] ++ skipped) (records (KDTree [ash_9_4; fir_10_0])))
  /\ length [fir_10_0] <= size (KDTree [ash_9_4; fir_10_0])
  /\ match KDTree [ash_9_4; fir_10_0] with
     | Empty => [fir_10_0] = []
     | Node tree _ _ _ => hd_error [fir_10_0] = Some tree
     end.
Proof.
  apply (@nearest_visits_each_node_once (KDTree [ash_9_4; fir_10_0]) 13 4 [fir_10_0]).
  vm_compute. reflexivity.
Defined.

(* ===================================================================== *)
(** * The rendering of display_tree *)
(* ===================================================================== *)

Lemma string_length_append (a b : String.string) :
  String.length (String.append a b) = String.length a + String.length b.
Proof. induction a as [|c a IH]; simpl; [reflexivity | now rewrite IH]. Qed.

Lemma len_append (a b : String.string) : len (String.append a b) = (len a + len b)%Z.
Proof. unfold len. rewrite string_length_append. lia. Qed.

Lemma len_str_mul_char (k : Z) (c : Ascii.ascii) :
  len (str_mul k (String.String c String.EmptyString)) = Z.of_nat (Z.to_nat k).
Proof.
  unfold len, str_mul. induction (Z.to_nat k) as [|n IH]; simpl; [reflexivity|].
  lia.
Qed.

Section DisplayFacts.

Variable py_repr : float -> String.string.

Lemma label_not_empty (tree : MunicipalTree) : (1 <= len (label py_repr tree))%Z.
Proof.
  unfold label. rewrite !len_append. change (len ","%string) with 1%Z. unfold len. lia.
Qed.

Ltac lens :=
  repeat rewrite len_append; repeat rewrite len_str_mul_char;
  change (len "|"%string) with 1%Z.

Lemma no_child_laid (tree : MunicipalTree) :
  well_laid 1 (len (label py_repr tree)) (no_child py_repr tree).
Proof.
  pose proof (label_not_empty tree) as Hu. unfold well_laid, no_child. simpl.
  repeat split; try lia.
  - repeat constructor.
  - apply Z.div_pos; lia.
  - apply Z.div_lt_upper_bound; lia.
Qed.

Lemma only_left_child_laid (tree : MunicipalTree) (levels : nat) (width : Z)
    (from_left : rendering) :
  well_laid levels width from_left ->
  well_laid (S levels) (width + len (label py_repr tree))
            (only_left_child py_repr tree from_left).
Proof.
  pose proof (label_not_empty tree) as Hu.
  destruct from_left as [[[lines n] p] x]. unfold well_laid, only_left_child.
  intros (Hp & Hl & Hx & Hh & Hn). subst width.
  set (u := len (label py_repr tree)) in *.
  assert (0 <= u / 2 < u)%Z
    by (split; [apply Z.div_pos | apply Z.div_lt_upper_bound]; lia).
  repeat split; try lia.
  - simpl. rewrite length_map. lia.
  - constructor; [lens; fold u; lia|]. constructor; [lens; lia|].
    apply Forall_map. eapply Forall_impl; [|exact Hl].
    intros line Hline. simpl in Hline. lens. lia.
Qed.

Lemma only_right_child_laid (tree : MunicipalTree) (levels : nat) (width : Z)
    (from_right : rendering) :
  well_laid levels width from_right ->
  well_laid (S levels) (len (label py_repr tree) + width)
            (only_right_child py_repr tree from_right).
Proof.
  pose proof (label_not_empty tree) as Hu.
  destruct from_right as [[[lines n] p] x]. unfold well_laid, only_right_child.
  intros (Hp & Hl & Hx & Hh & Hn). subst width.
  set (u := len (label py_repr tree)) in *.
  assert (0 <= u / 2 < u)%Z
    by (split; [apply Z.div_pos | apply Z.div_lt_upper_bound]; lia).
  repeat split; try lia.
  - simpl. rewrite length_map. lia.
  - constructor; [lens; fold u; lia|]. constructor; [lens; lia|].
    apply Forall_map. eapply Forall_impl; [|exact Hl].
    intros line Hline. simpl in Hline. lens. lia.
Qed.

Lemma Forall_repeat (A : Type) (P : A -> Prop) (x : A) (n : nat) :
  P x -> Forall P (repeat x n).
Proof. intros Hx. induction n; simpl; constructor; assumption. Qed.

Lemma two_children_laid (tree : MunicipalTree) (hl hr : nat) (wl wr : Z)
    (from_left from_right : rendering) :
  well_laid hl wl from_left -> well_laid hr wr from_right ->
  well_laid (S (Nat.max hl hr)) (wl + len (label py_repr tree) + wr)
            (two_children py_repr tree from_left from_right).
Proof.
  pose proof (label_not_empty tree) as Hu.
  destruct from_left as [[[left_ n] p] x], from_right as [[[right_ m] q] y].
  unfold well_laid, two_children.
  intros (Hp & Hl & Hx & Hh & Hn) (Hq & Hr & Hy & Hk & Hm). subst wl wr.
  set (u := len (label py_repr tree)) in *.
  assert (0 <= u / 2 < u)%Z
    by (split; [apply Z.div_pos | apply Z.div_lt_upper_bound]; lia).
  set (left' := if (p <? q)%Z
                then (left_ ++ list_mul (str_mul n " "%string) (q - p))%list else left_).
  set (right' := if (p <? q)%Z then right_
                 else if (q <? p)%Z
                      then (right_ ++ list_mul (str_mul m " "%string) (p - q))%list
                      else right_).
  assert (Ll : Z.of_nat (length left') = Z.max p q /\ Forall (fun s => len s = n) left').
  { unfold left', list_mul. destruct (Z.ltb_spec p q).
    - rewrite length_app, repeat_length. split; [lia|].
      apply Forall_app. split; [exact Hl|]. apply Forall_repeat.
      rewrite len_str_mul_char. lia.
    - split; [lia | exact Hl]. }
  assert (Lr : Z.of_nat (length right') = Z.max p q /\ Forall (fun s => len s = m) right').
  { unfold right', list_mul. destruct (Z.ltb_spec p q); [split; [lia | exact Hr]|].
    destruct (Z.ltb_spec q p); [|split; [lia | exact Hr]].
    rewrite length_app, repeat_length. split; [lia|].
    apply Forall_app. split; [exact Hr|]. apply Forall_repeat.
    rewrite len_str_mul_char. lia. }
  destruct Ll as [Ll Fl], Lr as [Lr Fr].
  repeat split; try lia.
  - simpl. rewrite length_map, length_combine. lia.
  - constructor; [lens; fold u; lia|]. constructor; [lens; lia|].
    apply Forall_map. apply Forall_forall. intros [a b] Hab. simpl.
    rewrite Forall_forall in Fl, Fr.
    pose proof (Fl a (in_combine_l _ _ _ _ Hab)) as Ha.
    pose proof (Fr b (in_combine_r _ _ _ _ Hab)) as Hb.
    simpl in Ha, Hb. lens. lia.
Qed.

End DisplayFacts.


Section DisplayTheorems.

Variable py_repr : float -> String.string.

Lemma KDT_empty_dec (t : KDT) : {t = Empty} + {t <> Empty}.
Proof. destruct t; [left; reflexivity | right; discriminate]. Qed.

Lemma _display_helper_only_left tree pivot l :
  l <> Empty ->
  _display_helper py_repr (Node tree pivot l Empty) =
  match _display_helper py_repr l with
  | PyMore.Throw e => PyMore.Throw e
  | PyMore.Return from_left => PyMore.Return (only_left_child py_repr tree from_left)
  end.
Proof. destruct l; [congruence | reflexivity]. Qed.

Lemma _display_helper_only_right tree pivot r :
  r <> Empty ->
  _display_helper py_repr (Node tree pivot Empty r) =
  match _display_helper py_repr r with
  | PyMore.Throw e => PyMore.Throw e
  | PyMore.Return from_right => PyMore.Return (only_right_child py_repr tree from_right)
  end.
Proof. destruct r; [congruence | reflexivity]. Qed.

Lemma _display_helper_two_children tree pivot l r :
  l <> Empty -> r <> Empty ->
  _display_helper py_repr (Node tree pivot l r) =
  match _display_helper py_repr l with
  | PyMore.Throw e => PyMore.Throw e
  | PyMore.Return from_left =>
      match _display_helper py_repr r with
      | PyMore.Throw e => PyMore.Throw e
      | PyMore.Return from_right =>
          PyMore.Return (two_children py_repr tree from_left from_right)
      end
  end.
Proof. destruct l, r; try congruence. reflexivity. Qed.

Lemma _display_helper_laid (node : KDT) :
  node <> Empty ->
  exists out,
    _display_helper py_repr node = PyMore.Return out
    /\ well_laid (height node) (label_width py_repr node) out.
Proof.
  induction node as [|tree pivot l IHl r IHr]; intros Hne; [congruence|].
  destruct (KDT_empty_dec l) as [El|Nl], (KDT_empty_dec r) as [Er|Nr].
  - subst l r. exists (no_child py_repr tree). split; [reflexivity|].
    simpl. rewrite Z.add_0_r. apply no_child_laid.
  - subst l. destruct (IHr Nr) as (out & E & W).
    rewrite (_display_helper_only_right tree pivot Nr), E.
    eexists. split; [reflexivity|]. simpl label_width. simpl height.
    now apply only_right_child_laid.
  - subst r. destruct (IHl Nl) as (out & E & W).
    rewrite (_display_helper_only_left tree pivot Nl), E.
    eexists. split; [reflexivity|]. simpl label_width. simpl height.
    rewrite Nat.max_0_r, Z.add_0_r. now apply only_left_child_laid.
  - destruct (IHl Nl) as (ol & El & Wl). destruct (IHr Nr) as (or & Er & Wr).
    rewrite (_display_helper_two_children tree pivot Nl Nr), El, Er.
    eexists. split; [reflexivity|]. simpl label_width. simpl height.
    now apply two_children_laid.
Qed.

(** display_tree on a non-empty tree raises nothing and prints a rectangle:
    one line less than twice the number of levels, every line as wide as the
    labels of all nodes put side by side. *)
Theorem display_tree_prints_a_rectangle (self : KDT) :
  self <> Empty ->
  exists lines,
    display_tree py_repr self = PyMore.Return lines
    /\ Z.of_nat (length lines) = (2 * Z.of_nat (height self) - 1)%Z
    /\ Forall (fun line => len line = label_width py_repr self) lines.
Proof.
  intros Hne. destruct (_display_helper_laid Hne) as ([[[lines n] p] x] & E & W).
  exists lines. unfold display_tree. rewrite E. split; [reflexivity|].
  destruct W as (Hp & Hl & _ & Hh & Hn). subst n. split; [lia | exact Hl].
Qed.

(** On an index built from a list, display_tree raises AttributeError
    exactly when the list is empty. *)
Theorem display_tree_fails_on_empty_index (data : list MunicipalTree) :
  display_tree py_repr (KDTree data) = PyMore.Throw PyMore.AttributeError
  <-> data = [].
Proof.
  split.
  - intros Hd. destruct data as [|t ts]; [reflexivity|]. exfalso.
    assert (Hne : KDTree (t :: ts) <> Empty).
    { intros E. pose proof (build_tree_size (t :: ts) 0) as Hs.
      unfold KDTree in E. rewrite E in Hs. discriminate Hs. }
    destruct (_display_helper_laid Hne) as ([[[lines n] p] x] & E & _).
    unfold display_tree in Hd. rewrite E in Hd. discriminate Hd.
  - intros ->. reflexivity.
Qed.

End DisplayTheorems.

(** The documented rendering of the tree of (1,1), (2,2), (3,3), given how
    [repr] writes 1.0, 2.0 and 3.0. *)
Lemma display_tree_doctest (py_repr : float -> String.string) :
  py_repr 1%float = "1.0"%string ->
  py_repr 2%float = "2.0"%string ->
  py_repr 3%float = "3.0"%string ->
  display_tree py_repr
    (KDTree [mkMunicipalTree 1 1 "oak"%string 10 1 1;
             mkMunicipalTree 2 2 "cherry"%string 10 2 2;
             mkMunicipalTree 3 3 "maple"%string 10 3 3])
  = PyMore.Return ["    ___2.0,2.0___    "%string;
                   "   |             |   "%string;
                   "1.0,1.0       3.0,3.0"%string].
Proof.
  intros H1 H2 H3.
  replace (KDTree _) with
    (Node (mkMunicipalTree 2 2 "cherry"%string 10 2 2) 2
       (Node (mkMunicipalTree 1 1 "oak"%string 10 1 1) 1 Empty Empty)
       (Node (mkMunicipalTree 3 3 "maple"%string 10 3 3) 3 Empty Empty))
    by (vm_compute; reflexivity).
  unfold display_tree, _display_helper, two_children, no_child, label. simpl _lat. simpl _lon.
  replace (round3 1) with 1%float by (vm_compute; reflexivity).
  replace (round3 2) with 2%float by (vm_compute; reflexivity).
  replace (round3 3) with 3%float by (vm_compute; reflexivity).
  rewrite H1, H2, H3. vm_compute. reflexivity.
Qed.

Lemma display_tree_prints_a_rectangle_witness :
  let py_repr := fun x => if (x =? 1)%float then "1.0"%string else "2.0"%string in
  exists lines,
    display_tree py_repr (KDTree [oak_1_1; elm_1_2]) = PyMore.Return lines
    /\ Z.of_nat (length lines)
       = (2 * Z.of_nat (height (KDTree [oak_1_1; elm_1_2])) - 1)%Z
    /\ Forall (fun line => len line = label_width py_repr (KDTree [oak_1_1; elm_1_2]))
              lines.
Proof.
  apply (@display_tree_prints_a_rectangle
           (fun x => if (x =? 1)%float then "1.0"%string else "2.0"%string)
           (KDTree [oak_1_1; elm_1_2])).
  vm_compute. discriminate.
Defined.

(* ===================================================================== *)
(** * Reading the records *)
(* ===================================================================== *)

Section ReaderFacts.

Variable py_int : String.string -> option Z.
Variable py_float : String.string -> option float.

Let of_row := MunicipalTree_of_row py_int py_float.

Lemma read_rows_returns (rows : list (list String.string)) :
  forall count trees out,
    read_rows py_int py_float rows (S count) trees = PyMore.Return out
    <-> exists more,
          out = trees ++ more
          /\ Forall2 (fun row tree => of_row row = PyMore.Return tree) rows more.
Proof.
  induction rows as [|row rest IH]; intros count trees out; simpl.
  - split.
    + intros [= <-]. exists []. rewrite app_nil_r. split; [reflexivity | constructor].
    + intros (more & -> & H). inversion H. now rewrite app_nil_r.
  - fold of_row. destruct (of_row row) as [tree|e] eqn:E.
    + rewrite IH. split.
      * intros (more & -> & H). exists (tree :: more).
        rewrite <- app_assoc. split; [reflexivity | now constructor].
      * intros (more & -> & H). inversion H as [|? t ? more' Ht Hrest]; subst.
        rewrite E in Ht. injection Ht as <-.
        exists more'. rewrite <- app_assoc. split; [reflexivity | exact Hrest].
    + split; [discriminate|].
      intros (more & _ & H). inversion H as [|? t ? more' Ht Hrest]; subst.
      rewrite E in Ht. discriminate Ht.
Qed.

Lemma read_rows_throws (rows : list (list String.string)) :
  forall count trees e,
    read_rows py_int py_float rows (S count) trees = PyMore.Throw e
    <-> exists good made bad rest,
          rows = good ++ bad :: rest
          /\ Forall2 (fun row tree => of_row row = PyMore.Return tree) good made
          /\ of_row bad = PyMore.Throw e.
Proof.
  induction rows as [|row rest IH]; intros count trees e; simpl.
  - split; [discriminate|].
    intros (good & made & bad & rest & H & _). destruct good; discriminate H.
  - fold of_row. destruct (of_row row) as [tree|e'] eqn:E.
    + rewrite IH. split.
      * intros (good & made & bad & rest' & -> & HF & Hb).
        exists (row :: good), (tree :: made), bad, rest'.
        split; [reflexivity|]. split; [now constructor | exact Hb].
      * intros (good & made & bad & rest' & Hrows & HF & Hb).
        destruct good as [|g good].
        -- simpl in Hrows. injection Hrows as <- <-. rewrite E in Hb. discriminate Hb.
        -- simpl in Hrows. injection Hrows as <- ->.
           inversion HF as [|? t ? made' _ HF']; subst.
           exists good, made', bad, rest'. split; [reflexivity|]. now split.
    + split.
      * intros [= <-]. exists [], [], row, rest. split; [reflexivity|].
        split; [constructor | exact E].
      * intros (good & made & bad & rest' & Hrows & HF & Hb).
        destruct good as [|g good].
        -- simpl in Hrows. injection Hrows as <- <-. rewrite E in Hb.
           injection Hb as <-. reflexivity.
        -- simpl in Hrows. injection Hrows as <- ->.
           inversion HF as [|? t ? made' Ht _]; subst.
           rewrite E in Ht. discriminate Ht.
Qed.

(** read_trees never reads the first row as a record, whatever it holds;
    it returns a list exactly when every later row constructs a
    MunicipalTree, and then the list holds those records, one per row, in
    the order of the rows.  A file without rows gives the empty list. *)
Theorem read_trees_skips_header_and_keeps_order
    (header : list String.string) (rows : list (list String.string))
    (trees : list MunicipalTree) :
  (read_trees py_int py_float (header :: rows) = PyMore.Return trees
   <-> Forall2 (fun row tree =>
                  MunicipalTree_of_row py_int py_float row = PyMore.Return tree)
               rows trees)
  /\ read_trees py_int py_float [] = PyMore.Return [].
Proof.
  split; [|reflexivity]. unfold read_trees. simpl. rewrite read_rows_returns.
  split.
  - intros (more & -> & H). exact H.
  - intros H. now exists trees.
Qed.

(** read_trees raises exactly when some row after the first does not
    construct a MunicipalTree, and it raises the error of the first such
    row: ValueError for a field that does not parse, TypeError for a row that
    has not six fields.  No list is returned then. *)
Theorem read_trees_raises_on_first_bad_row
    (header : list String.string) (rows : list (list String.string))
    (e : PyMore.exn) :
  (read_trees py_int py_float (header :: rows) = PyMore.Throw e
   <-> exists good made bad rest,
         rows = good ++ bad :: rest
         /\ Forall2 (fun row tree =>
                       MunicipalTree_of_row py_int py_float row = PyMore.Return tree)
                    good made
         /\ MunicipalTree_of_row py_int py_float bad = PyMore.Throw e)
  /\ (forall bad, MunicipalTree_of_row py_int py_float bad = PyMore.Throw e ->
        e = PyMore.Builtin ValueError
        \/ (e = PyMore.TypeError /\ length bad <> 6)).
Proof.
  split.
  - unfold read_trees. simpl. apply read_rows_throws.
  - intros bad. unfold MunicipalTree_of_row.
    destruct bad as [|f1 [|f2 [|f3 [|f4 [|f5 [|f6 [|f7 bad]]]]]]];
      try (intros [= <-]; right; split; [reflexivity | simpl; lia]).
    unfold MunicipalTree_init, int_of, float_of.
    destruct (py_int f1), (py_int f2), (py_int f4), (py_float f5), (py_float f6);
      simpl; try discriminate; intros [= <-]; now left.
Qed.

End ReaderFacts.

(* ===================================================================== *)
(** * get_nearest at the position of a stored record *)
(* ===================================================================== *)

Module FloatZero.

Lemma SFsqrt_nonneg prec emax x : SFnonneg (SFsqrt prec emax x).
Proof.
  destruct x as [s|[]| |[] m e]; simpl; auto.
  destruct (SFsqrt_core_binary prec emax (Z.pos m) e) as [[mz ez] lz].
  pose proof (FloatOrder.binary_round_aux_sign prec emax false mz ez lz) as H.
  destruct (binary_round_aux _ _ _ _ _ _); simpl; auto.
Qed.

(** Equal numbers, one of them finite, differ by a zero. *)
Lemma SFcompare_eq_sub prec emax x y :
  (exists s, x = S754_zero s) \/ (exists s m e, x = S754_finite s m e) ->
  SFcompare x y = Some Eq ->
  exists s, SFsub prec emax y x = S754_zero s.
Proof.
  intros [(s & ->)|(s & m & e & ->)]; destruct y as [sy|sy| |sy my ey]; simpl;
    try discriminate; try (destruct s; discriminate); try (destruct sy; discriminate).
  - intros _. destruct sy, s; eauto.
  - destruct s, sy; try discriminate.
    + destruct (Z.compare_spec e ey); try discriminate. subst.
      change (Pos.compare_cont Eq m my) with (Pos.compare m my).
      destruct (Pos.compare_spec m my); try discriminate. subst. intros _.
      rewrite Z.min_id, Z.sub_diag. simpl. eauto.
    + destruct (Z.compare_spec e ey); try discriminate. subst.
      change (Pos.compare_cont Eq m my) with (Pos.compare m my).
      destruct (Pos.compare_spec m my); try discriminate. subst. intros _.
      rewrite Z.min_id, Z.sub_diag. simpl. eauto.
Qed.

Lemma SFlt_not_nan x y : SFltb x y = true -> SFeqb x x = true.
Proof.
  unfold SFltb, SFeqb.
  destruct x as [s|s| |s m e], y as [s'|s'| |s' m' e']; simpl;
    try discriminate; try reflexivity; intros _; try (destruct s; reflexivity).
  all: destruct s; rewrite ?Z.compare_refl, ?Pos.compare_cont_refl; try reflexivity.
Qed.

Lemma SFle_not_lt_eq x y : SFleb x y = true -> SFltb x y = false -> SFcompare x y = Some Eq.
Proof. unfold SFleb, SFltb. destruct (SFcompare x y) as [[]|]; congruence. Qed.

Local Open Scope float_scope.

Lemma sqrt_nonneg x : (sqrt x <? 0) = false.
Proof.
  rewrite ltb_spec, sqrt_spec. apply FloatOrder.SFnonneg_not_lt_zero, SFsqrt_nonneg.
Qed.

Lemma lt_not_nan a b : (a <? b) = true -> is_nan a = false.
Proof.
  unfold is_nan. rewrite ltb_spec, negb_false_iff, eqb_spec. apply SFlt_not_nan.
Qed.

Lemma le_zero_is_zero d : (d <=? 0) = true -> (d <? 0) = false -> (d =? 0) = true.
Proof.
  rewrite leb_spec, ltb_spec, eqb_spec. intros H1 H2.
  unfold SFeqb. now rewrite (SFle_not_lt_eq _ _ H1 H2).
Qed.

(** The squared gap to a pivot the finite query value ties with is [0.0]. *)
Lemma pow2_of_tie q p :
  is_finite q = true -> (q <=? p) = true -> (q <? p) = false ->
  pow2 (p - q) = Ok 0.
Proof.
  intros Hf Hle Hlt. rewrite leb_spec in Hle. rewrite ltb_spec in Hlt.
  pose proof (SFle_not_lt_eq _ _ Hle Hlt) as Heq.
  destruct (@SFcompare_eq_sub prec emax _ _ (FloatSub.finite_cases q Hf) Heq)
    as (s & Hs).
  assert (Hz : (p - q) * (p - q) = 0).
  { apply Prim2SF_inj. rewrite mul_spec, sub_spec.
    unfold SF64sub. rewrite Hs. destruct s; reflexivity. }
  unfold pow2. rewrite Hz. reflexivity.
Qed.

End FloatZero.

Lemma euclid_at_own_position (a b : float) :
  is_finite a = true -> is_finite b = true -> euclid a b a b = Ok 0%float.
Proof.
  intros Ha Hb. unfold euclid.
  rewrite (FloatSub.sub_self a Ha), (FloatSub.sub_self b Hb). vm_compute. reflexivity.
Qed.

Lemma euclid_nonneg (a b lat lon d : float) :
  euclid a b lat lon = Ok d -> (d <? 0)%float = false.
Proof.
  unfold euclid.
  destruct (pow2 (a - lat)) as [dlat|e]; simpl; [|discriminate].
  destruct (pow2 (b - lon)) as [dlon|e]; simpl; [|discriminate].
  unfold math_sqrt. destruct (dlat + dlon <? 0)%float; [discriminate|].
  intros [= <-]. apply FloatZero.sqrt_nonneg.
Qed.

Lemma improves_refl b : improves b b.
Proof. now left. Qed.

Lemma improves_trans b1 b2 b3 : improves b3 b2 -> improves b2 b1 -> improves b3 b1.
Proof.
  unfold improves. intros [E1|L1] [E2|L2].
  - left. congruence.
  - right. now rewrite E1.
  - right. now rewrite <- E2.
  - right. apply FloatOrder.lt_le in L1. exact (FloatOrder.le_lt_trans L1 L2).
Qed.

Lemma _get_nearest_recursive_improves (node : KDT) (lat lon : float) :
  forall depth best best',
    _get_nearest_recursive node lat lon depth best = Ok best' -> improves best' best.
Proof.
  induction node as [|tree pivot l IHl r IHr]; intros depth best best'; simpl.
  - intros [= <-]. apply improves_refl.
  - destruct (euclid (_lat tree) (_lon tree) lat lon) as [dist|e]; simpl;
      [|discriminate].
    set (best1 := if (dist <? snd best)%float then (Some tree, dist) else best).
    assert (H1 : improves best1 best).
    { unfold best1. destruct (dist <? snd best)%float eqn:E;
        [right; exact E | apply improves_refl]. }
    set (q := if depth mod 2 =? 0 then lat else lon).
    assert (Hstep : forall a b : KDT,
      (forall depth best best',
         _get_nearest_recursive a lat lon depth best = Ok best' -> improves best' best) ->
      (forall depth best best',
         _get_nearest_recursive b lat lon depth best = Ok best' -> improves best' best) ->
      (best2 <- _get_nearest_recursive a lat lon (S depth) best1 ;;
       gap <- pow2 (pivot - q) ;;
       if (gap <? snd best2)%float
       then _get_nearest_recursive b lat lon (S depth) best2
       else Ok best2) = Ok best' ->
      improves best' best).
    { intros a b Ha Hb.
      destruct (_get_nearest_recursive a lat lon (S depth) best1) as [best2|e] eqn:E2;
        simpl; [|discriminate].
      pose proof (improves_trans (Ha _ _ _ E2) H1) as H2.
      destruct (pow2 (pivot - q)) as [gap|e]; simpl; [|discriminate].
      destruct (gap <? snd best2)%float.
      - intros E3. exact (improves_trans (Hb _ _ _ E3) H2).
      - intros [= <-]. exact H2. }
    destruct (q <? pivot)%float; [apply (Hstep l r) | apply (Hstep r l)]; assumption.
Qed.

Lemma improves_at_zero b' b :
  improves b' b -> (snd b <=? 0)%float = true -> (snd b' <=? 0)%float = true.
Proof.
  intros [E|L] Hz; [now rewrite E|].
  apply FloatOrder.lt_le in L. exact (FloatOrder.le_trans L Hz).
Qed.

Lemma improves_not_nan b' b :
  improves b' b -> is_nan (snd b) = false -> is_nan (snd b') = false.
Proof.
  intros [E|L] Hn; [now rewrite E | exact (FloatZero.lt_not_nan L)].
Qed.


Section ExactHit.

Variable target : MunicipalTree.
Hypothesis lat_finite : is_finite (_lat target) = true.
Hypothesis lon_finite : is_finite (_lon target) = true.

Let lat := _lat target.
Let lon := _lon target.

Lemma axis_finite (dim : nat) : is_finite (axis dim target) = true.
Proof. destruct dim; assumption. Qed.

(** What is left of the body of [_get_nearest_recursive] after the node's
    own record, with [a] the near and [b] the far child. *)
Let rest_of_body (a b : KDT) (depth : nat) (gap_of : float) (best1 : best_t) :=
  best2 <- _get_nearest_recursive a lat lon (S depth) best1 ;;
  gap <- pow2 gap_of ;;
  if (gap <? snd best2)%float
  then _get_nearest_recursive b lat lon (S depth) best2
  else Ok best2.

Lemma rest_improves a b depth gap_of best1 best' :
  rest_of_body a b depth gap_of best1 = Ok best' -> improves best' best1.
Proof.
  unfold rest_of_body.
  destruct (_get_nearest_recursive a lat lon (S depth) best1) as [best2|e] eqn:E2;
    simpl; [|discriminate].
  pose proof (_get_nearest_recursive_improves _ _ _ _ _ E2) as H2.
  destruct (pow2 gap_of) as [gap|e]; simpl; [|discriminate].
  destruct (gap <? snd best2)%float.
  - intros E3. exact (improves_trans (_get_nearest_recursive_improves _ _ _ _ _ E3) H2).
  - intros [= <-]. exact H2.
Qed.

Lemma not_above_zero (b : float) :
  is_nan b = false -> (0 <? b)%float = false -> (b <=? 0)%float = true.
Proof. intros Hn Hlt. apply FloatOrder.le_total; [reflexivity | exact Hn | exact Hlt]. Qed.

Lemma _get_nearest_recursive_reaches_zero (node : KDT) :
  forall depth best best',
    weakly_partitioned depth node ->
    In target (records node) ->
    is_nan (snd best) = false ->
    _get_nearest_recursive node lat lon depth best = Ok best' ->
    (snd best' <=? 0)%float = true.
Proof.
  induction node as [|tree pivot l IHl r IHr]; intros depth best best' Hp Hin Hn;
    simpl in *; [contradiction|].
  destruct Hp as (Hl & Hr & Hpl & Hpr).
  destruct (euclid (_lat tree) (_lon tree) lat lon) as [dist|e] eqn:Ed; simpl;
    [|discriminate].
  set (best1 := if (dist <? snd best)%float then (Some tree, dist) else best).
  assert (H1 : improves best1 best).
  { unfold best1. destruct (dist <? snd best)%float eqn:E;
      [right; exact E | apply improves_refl]. }
  assert (Hn1 : is_nan (snd best1) = false) by exact (improves_not_nan H1 Hn).
  set (q := if depth mod 2 =? 0 then lat else lon).
  assert (Hq : q = axis (depth mod 2) target).
  { unfold q, axis, lat, lon. destruct (depth mod 2); reflexivity. }
  assert (Hqf : is_finite q = true) by (rewrite Hq; apply axis_finite).
  apply in_app_or in Hin. destruct Hin as [Hin|[Heq|Hin]].
  - (* the target is in the left subtree *)
    rewrite Forall_forall in Hl. pose proof (Hl target Hin) as Hle. rewrite <- Hq in Hle.
    destruct (q <? pivot)%float eqn:Hlt.
    + destruct (_get_nearest_recursive l lat lon (S depth) best1) as [best2|e] eqn:E2;
        simpl; [|discriminate].
      pose proof (IHl _ _ _ Hpl Hin Hn1 E2) as Hz.
      destruct (pow2 (pivot - q)) as [gap|e]; simpl; [|discriminate].
      destruct (gap <? snd best2)%float.
      * intros E3.
        exact (improves_at_zero (_get_nearest_recursive_improves _ _ _ _ _ E3) Hz).
      * intros [= <-]. exact Hz.
    + destruct (_get_nearest_recursive r lat lon (S depth) best1) as [best2|e] eqn:E2;
        simpl; [|discriminate].
      pose proof (improves_not_nan (_get_nearest_recursive_improves _ _ _ _ _ E2) Hn1)
        as Hn2.
      rewrite (@FloatZero.pow2_of_tie q pivot Hqf Hle Hlt). simpl.
      destruct (0 <? snd best2)%float eqn:Hpos.
      * intros E3. exact (IHl _ _ _ Hpl Hin Hn2 E3).
      * intros [= <-]. now apply not_above_zero.
  - (* the target is the record of this node *)
    subst tree. unfold lat, lon in Ed.
    rewrite (@euclid_at_own_position _ _ lat_finite lon_finite) in Ed.
    injection Ed as <-.
    assert (Hz : (snd best1 <=? 0)%float = true).
    { unfold best1. destruct (0 <? snd best)%float eqn:Hpos;
        [reflexivity | now apply not_above_zero]. }
    intros Hrest.
    assert (Himp : improves best' best1).
    { destruct (q <? pivot)%float.
      - exact (@rest_improves l r depth (pivot - q)%float best1 best' Hrest).
      - exact (@rest_improves r l depth (pivot - q)%float best1 best' Hrest). }
    exact (improves_at_zero Himp Hz).
  - (* the target is in the right subtree *)
    rewrite Forall_forall in Hr. pose proof (Hr target Hin) as Hle. rewrite <- Hq in Hle.
    rewrite (FloatOrderMore.le_not_lt Hle).
    destruct (_get_nearest_recursive r lat lon (S depth) best1) as [best2|e] eqn:E2;
      simpl; [|discriminate].
    pose proof (IHr _ _ _ Hpr Hin Hn1 E2) as Hz.
    destruct (pow2 (pivot - q)) as [gap|e]; simpl; [|discriminate].
    destruct (gap <? snd best2)%float.
    + intros E3.
      exact (improves_at_zero (_get_nearest_recursive_improves _ _ _ _ _ E3) Hz).
    + intros [= <-]. exact Hz.
Qed.

End ExactHit.

(** Queried at the position of a stored record with finite coordinates,
    get_nearest, when it raises nothing, returns a stored record at distance
    0.0 from the query (no coordinate in the input being nan). *)
Theorem nearest_at_a_stored_position
    (data : list MunicipalTree) (target : MunicipalTree) (res : option MunicipalTree) :
  Forall no_nan data ->
  In target data ->
  is_finite (_lat target) = true -> is_finite (_lon target) = true ->
  get_nearest (KDTree data) (_lat target) (_lon target) = Ok res ->
  exists r d,
    res = Some r
    /\ In r data
    /\ euclid (_lat r) (_lon r) (_lat target) (_lon target) = Ok d
    /\ (d =? 0)%float = true.
Proof.
  intros Hok Hin Hlat Hlon. unfold get_nearest.
  destruct (_get_nearest_recursive (KDTree data) (_lat target) (_lon target) 0
              (None, infinity)) as [best|e] eqn:E; simpl; [|discriminate].
  intros [= <-].
  assert (Hz : (snd best <=? 0)%float = true).
  { apply (@_get_nearest_recursive_reaches_zero target Hlat Hlon (KDTree data) 0
             (None, infinity) best).
    - now apply build_tree_weakly_partitioned.
    - apply (Permutation_in _ (Permutation_sym (build_tree_records data 0))). exact Hin.
    - reflexivity.
    - exact E. }
  pose proof E as El. rewrite logged_erases in El.
  destruct (_get_nearest_logged (KDTree data) (_lat target) (_lon target) 0
              (None, infinity)) as [[best0 trees]|e] eqn:Eg; simpl in El; [|discriminate El].
  injection El as ->. apply logged_is_scan in Eg. simpl in Eg.
  assert (Hseed : first_minimum (_lat target) (_lon target) [] (None, infinity))
    by (split; [reflexivity | constructor]).
  pose proof (@scan_first_minimum (_lat target) (_lon target) trees []
                (None, infinity) best Hseed Eg) as Hinv.
  unfold first_minimum in Hinv. destruct best as [[r|] d]; simpl in *.
  - destruct Hinv as (before & after & _ & Er & _).
    exists r, d. split; [reflexivity|]. split; [|split; [exact Er|]].
    + destruct (_get_nearest_recursive_candidate _ _ _ _ _ E) as [Eq|(x & Ex & Hx)];
        simpl in *; [discriminate Eq|].
      injection Ex as <-.
      apply (Permutation_in _ (build_tree_records data 0)). exact Hx.
    + apply FloatZero.le_zero_is_zero; [exact Hz | exact (euclid_nonneg _ _ _ _ Er)].
  - destruct Hinv as [-> _]. vm_compute in Hz. discriminate Hz.
Qed.

(** The record (1.0, 1.0), which ties with the root on latitude and sits in
    its left subtree, is found at its own position. *)
Lemma nearest_at_a_stored_position_witness :
  exists r d,
    Some oak_1_1 = Some r
    /\ In r [oak_1_1; elm_1_2]
    /\ euclid (_lat r) (_lon r) (_lat oak_1_1) (_lon oak_1_1) = Ok d
    /\ (d =? 0)%float = true.
Proof.
  apply (@nearest_at_a_stored_position [oak_1_1; elm_1_2] oak_1_1 (Some oak_1_1)).
  - exact no_nan_oak_elm.
  - left. reflexivity.
  - vm_compute. reflexivity.
  - vm_compute. reflexivity.
  - vm_compute. reflexivity.
Defined.

(* ===================================================================== *)
(** * Queries with a nan coordinate *)
(* ===================================================================== *)

Module FloatNan.

Local Open Scope float_scope.

Lemma is_nan_spec x : is_nan x = true <-> Prim2SF x = S754_nan.
Proof.
  unfold is_nan. rewrite negb_true_iff, eqb_spec. unfold SFeqb.
  destruct (Prim2SF x) as [s|s| |s m e]; simpl.
  - split; discriminate.
  - destruct s; split; discriminate.
  - split; reflexivity.
  - destruct s; rewrite Z.compare_refl, Pos.compare_cont_refl; split; discriminate.
Qed.

Lemma sub_nan_r a x : is_nan x = true -> is_nan (a - x) = true.
Proof.
  rewrite !is_nan_spec, sub_spec. intros ->. destruct (Prim2SF a); reflexivity.
Qed.

Lemma mul_nan x : is_nan x = true -> is_nan (x * x) = true.
Proof. rewrite !is_nan_spec, mul_spec. now intros ->. Qed.

Lemma add_nan_l x y : is_nan x = true -> is_nan (x + y) = true.
Proof. rewrite !is_nan_spec, add_spec. now intros ->. Qed.

Lemma add_nan_r x y : is_nan y = true -> is_nan (x + y) = true.
Proof.
  rewrite !is_nan_spec, add_spec. intros ->. destruct (Prim2SF x); reflexivity.
Qed.

Lemma sqrt_nan x : is_nan x = true -> is_nan (sqrt x) = true.
Proof. rewrite !is_nan_spec, sqrt_spec. now intros ->. Qed.

Lemma nan_not_lt x y : is_nan x = true -> (x <? y) = false.
Proof. rewrite is_nan_spec, ltb_spec. now intros ->. Qed.

Lemma nan_not_eq x y : is_nan x = true -> (x =? y) = false.
Proof. rewrite is_nan_spec, eqb_spec. now intros ->. Qed.

Lemma nan_not_infinite x : is_nan x = true -> is_infinity x = false.
Proof.
  unfold is_infinity. rewrite is_nan_spec, eqb_spec, abs_spec. now intros ->.
Qed.

Lemma round5_nan x : is_nan x = true -> round5 x = x.
Proof. rewrite is_nan_spec. unfold round5. now intros ->. Qed.

End FloatNan.

Lemma pow2_nan (x y : float) : is_nan x = true -> pow2 x = Ok y -> is_nan y = true.
Proof.
  intros Hx. unfold pow2.
  rewrite (@FloatNan.nan_not_infinite _ (@FloatNan.mul_nan _ Hx)). simpl.
  intros [= <-]. now apply FloatNan.mul_nan.
Qed.

Lemma math_sqrt_nan (x y : float) :
  is_nan x = true -> math_sqrt x = Ok y -> is_nan y = true.
Proof.
  intros Hx. unfold math_sqrt. rewrite (@FloatNan.nan_not_lt _ 0%float Hx).
  intros [= <-]. now apply FloatNan.sqrt_nan.
Qed.

(** With a nan query coordinate every distance that is computed is nan. *)
Lemma euclid_nan (a b lat lon d : float) :
  is_nan lat = true \/ is_nan lon = true ->
  euclid a b lat lon = Ok d -> is_nan d = true.
Proof.
  intros Hq. unfold euclid.
  destruct (pow2 (a - lat)) as [dlat|e] eqn:E1; simpl; [|discriminate].
  destruct (pow2 (b - lon)) as [dlon|e] eqn:E2; simpl; [|discriminate].
  apply math_sqrt_nan. destruct Hq as [H|H].
  - apply FloatNan.add_nan_l. apply (@pow2_nan _ _ (@FloatNan.sub_nan_r a _ H) E1).
  - apply FloatNan.add_nan_r. apply (@pow2_nan _ _ (@FloatNan.sub_nan_r b _ H) E2).
Qed.

Lemma _get_nearest_recursive_nan (node : KDT) (lat lon : float) :
  is_nan lat = true \/ is_nan lon = true ->
  forall depth best best',
    _get_nearest_recursive node lat lon depth best = Ok best' -> best' = best.
Proof.
  intros Hq. induction node as [|tree pivot l IHl r IHr]; intros depth best best'; simpl.
  - now intros [= <-].
  - destruct (euclid (_lat tree) (_lon tree) lat lon) as [dist|e] eqn:Ed; simpl;
      [|discriminate].
    rewrite (@FloatNan.nan_not_lt _ (snd best) (@euclid_nan _ _ _ _ _ Hq Ed)).
    set (q := if depth mod 2 =? 0 then lat else lon).
    assert (Hstep : forall a b : KDT,
      (forall depth best best',
         _get_nearest_recursive a lat lon depth best = Ok best' -> best' = best) ->
      (forall depth best best',
         _get_nearest_recursive b lat lon depth best = Ok best' -> best' = best) ->
      (best2 <- _get_nearest_recursive a lat lon (S depth) best ;;
       gap <- pow2 (pivot - q) ;;
       if (gap <? snd best2)%float
       then _get_nearest_recursive b lat lon (S depth) best2
       else Ok best2) = Ok best' ->
      best' = best).
    { intros a b Ha Hb.
      destruct (_get_nearest_recursive a lat lon (S depth) best) as [best2|e] eqn:E2;
        simpl; [|discriminate].
      apply Ha in E2. subst best2.
      destruct (pow2 (pivot - q)) as [gap|e]; simpl; [|discriminate].
      destruct (gap <? snd best)%float; [apply Hb | now intros [= <-]]. }
    destruct (q <? pivot)%float; [apply (Hstep l r) | apply (Hstep r l)]; assumption.
Qed.

(** A query with a nan coordinate is answered None by get_nearest on every
    tree, unless squaring a difference raises. *)
Theorem nearest_of_nan_is_none (self : KDT) (lat lon : float)
    (res : option MunicipalTree) :
  is_nan lat = true \/ is_nan lon = true ->
  get_nearest self lat lon = Ok res -> res = None.
Proof.
  intros Hq. unfold get_nearest.
  destruct (_get_nearest_recursive self lat lon 0 (None, infinity)) as [best|e] eqn:E;
    simpl; [|discriminate].
  apply (@_get_nearest_recursive_nan self lat lon Hq) in E. subst best. now intros [= <-].
Qed.

Lemma nearest_of_nan_is_none_witness : @None MunicipalTree = None.
Proof.
  apply (@nearest_of_nan_is_none (KDTree [ash_9_4; fir_10_0]) nan 4 None).
  - left. vm_compute. reflexivity.
  - vm_compute. reflexivity.
Defined.

(** A query with a nan coordinate is answered False by lookup on every
    tree: a position with a nan coordinate is never found, stored or not. *)
Theorem lookup_of_nan_is_false (self : KDT) (lat lon : float) :
  is_nan lat = true \/ is_nan lon = true ->
  lookup self lat lon = false.
Proof.
  intros Hq. unfold lookup. generalize 0.
  induction self as [|tree pivot l IHl r IHr]; intros depth; simpl; [reflexivity|].
  assert (Hm : (round5 lat =? round5 (_lat tree))%float
               && (round5 lon =? round5 (_lon tree))%float = false).
  { destruct Hq as [H|H].
    - rewrite (@FloatNan.round5_nan _ H), (@FloatNan.nan_not_eq _ (round5 (_lat tree)) H).
      reflexivity.
    - rewrite (@FloatNan.round5_nan _ H), (@FloatNan.nan_not_eq _ (round5 (_lon tree)) H).
      apply andb_false_r. }
  rewrite Hm. destruct (_ <? pivot)%float; [apply IHl | apply IHr].
Qed.

Lemma lookup_of_nan_is_false_witness :
  lookup (KDTree [ash_9_4; fir_10_0]) 9 nan = false.
Proof.
  apply (@lookup_of_nan_is_false (KDTree [ash_9_4; fir_10_0]) 9 nan).
  right. vm_compute. reflexivity.
Defined.
